(** * Markup normalization engine of the design arena viewer

    A shallow embedding of [src/viewer/lib/primary-section.ts]: the
    regular expressions the module is written with, the JavaScript string
    operations it calls ([replace], [split], [trim], [exec]) and the
    functions of the module itself, followed by the properties of the
    extractor and of its stages. *)

From Stdlib Require Import String Ascii List NArith Bool Arith Lia.
Import ListNotations.

Set Implicit Arguments.

(** ** Strings

    A JavaScript string is a sequence of UTF-16 code units.  A code unit is
    kept as an [N]; the functions below never look at the upper bound. *)

Definition code_unit := N.
Definition jsstring := list code_unit.

Definition cu (a : ascii) : code_unit := N_of_ascii a.
Definition js (s : string) : jsstring := map cu (list_ascii_of_string s).

(** The double quote, and a double-quoted piece of text. *)
Definition dqc : code_unit := 34%N.
Definition dq : jsstring := [dqc].
Definition quoted (s : string) : jsstring := dq ++ js s ++ dq.

Definition jsstring_eqb (a b : jsstring) : bool :=
  if list_eq_dec N.eq_dec a b then true else false.

(** [WhiteSpace] and [LineTerminator] of ECMAScript: what [\s] matches and
    what [String.prototype.trim] removes. *)
Definition is_space (c : code_unit) : bool :=
  ((9 <=? c) && (c <=? 13) || (c =? 32) || (c =? 160) || (c =? 5760)
   || ((8192 <=? c) && (c <=? 8202)) || (c =? 8232) || (c =? 8233)
   || (c =? 8239) || (c =? 8287) || (c =? 12288) || (c =? 65279))%N.

Definition is_lower (c : code_unit) : bool := ((97 <=? c) && (c <=? 122))%N.
Definition is_upper (c : code_unit) : bool := ((65 <=? c) && (c <=? 90))%N.
Definition to_upper (c : code_unit) : code_unit := if is_lower c then (c - 32)%N else c.
Definition to_lower (c : code_unit) : code_unit := if is_upper c then (c + 32)%N else c.

(** [Canonicalize] of the regular expression semantics without the [u]
    flag.  Every pattern character of this module is ASCII, and
    canonicalization never sends a code unit above 127 to one below 128, so
    only the ASCII letters are folded here. *)
Definition canon (ic : bool) (c : code_unit) : code_unit :=
  if ic then to_upper c else c.

Fixpoint drop_while (p : code_unit -> bool) (s : jsstring) : jsstring :=
  match s with
  | c :: s' => if p c then drop_while p s' else s
  | [] => []
  end.

(** [String.prototype.trim]. *)
Definition trim (s : jsstring) : jsstring :=
  rev (drop_while is_space (rev (drop_while is_space s))).

(** [Array.prototype.join]. *)
Fixpoint join (sep : jsstring) (l : list jsstring) : jsstring :=
  match l with
  | [] => []
  | [x] => x
  | x :: l' => x ++ sep ++ join sep l'
  end.

(** [filter(Boolean)] on an array of strings: the empty string is falsy. *)
Definition truthy (s : jsstring) : bool :=
  match s with [] => false | _ => true end.

(** [s.slice(1, -1)]. *)
Definition slice_1_m1 (s : jsstring) : jsstring := removelast (tl s).

Definition starts_with (c : code_unit) (s : jsstring) : bool :=
  match s with x :: _ => (x =? c)%N | [] => false end.

Definition ends_with (c : code_unit) (s : jsstring) : bool :=
  starts_with c (rev s).

(** ** Regular expressions

    In the patterns quoted in comments, [\x22] is the double quote.

    The patterns of the module use literal characters, character classes,
    greedy and lazy repetition of a single character or class, capture
    groups, alternation and one backreference.  A repetition is always over
    one character position, so the backtracking matcher is structural. *)

Inductive class_item : Type :=
| CChar (c : code_unit)
| CRange (lo hi : code_unit)
| CSpace
| CNotSpace.

Inductive atom : Type :=
| AChar (c : code_unit)
| ASet (negated : bool) (items : list class_item).

Inductive regex : Type :=
| Empty
| Atom (a : atom)
| Seq (r1 r2 : regex)
| Alt (r1 r2 : regex)
| Star (greedy : bool) (a : atom)
| Group (n : nat) (r : regex)
| Backref (n : nat).

Definition Plus (greedy : bool) (a : atom) : regex := Seq (Atom a) (Star greedy a).

Declare Scope regex_scope.
Delimit Scope regex_scope with re.
Bind Scope regex_scope with regex.
Notation "r1 ;; r2" := (Seq r1 r2) (at level 61, right associativity) : regex_scope.

Fixpoint lit_of (l : list ascii) : regex :=
  match l with
  | [] => Empty
  | [a] => Atom (AChar (cu a))
  | a :: l' => Seq (Atom (AChar (cu a))) (lit_of l')
  end.

(** A run of literal characters. *)
Definition lit (s : string) : regex := lit_of (list_ascii_of_string s).

Definition chr (a : ascii) : regex := Atom (AChar (cu a)).
Definition ch (a : ascii) : class_item := CChar (cu a).
Definition rng (lo hi : ascii) : class_item := CRange (cu lo) (cu hi).

(** [\s], [[\s\S]] and [[^c]]. *)
Definition space : atom := ASet false [CSpace].
Definition any : atom := ASet false [CSpace; CNotSpace].
Definition none_of (l : list class_item) : atom := ASet true l.
Definition one_of (l : list class_item) : atom := ASet false l.

Definition captures := list (nat * jsstring).

Fixpoint cap_get (n : nat) (caps : captures) : option jsstring :=
  match caps with
  | [] => None
  | (i, w) :: caps' => if Nat.eqb i n then Some w else cap_get n caps'
  end.

Section Matcher.

(** The [i] flag. *)
Variable ic : bool.

Definition in_range (lo hi c : code_unit) : bool := ((lo <=? c) && (c <=? hi))%N.

Definition item_match (i : class_item) (c : code_unit) : bool :=
  match i with
  | CChar x => (canon ic c =? canon ic x)%N
  | CRange lo hi =>
      if ic then in_range lo hi c || in_range lo hi (to_upper c) || in_range lo hi (to_lower c)
      else in_range lo hi c
  | CSpace => is_space c
  | CNotSpace => negb (is_space c)
  end.

Definition atom_match (a : atom) (c : code_unit) : bool :=
  match a with
  | AChar x => (canon ic c =? canon ic x)%N
  | ASet negated items => xorb negated (existsb (fun i => item_match i c) items)
  end.

Definition cont := jsstring -> captures -> option (jsstring * captures).

(** [a*]: take as many as possible, give back one at a time. *)
Fixpoint star_greedy (a : atom) (s : jsstring) (caps : captures) (k : cont)
  : option (jsstring * captures) :=
  match s with
  | c :: s' =>
      if atom_match a c then
        match star_greedy a s' caps k with
        | Some res => Some res
        | None => k s caps
        end
      else k s caps
  | [] => k s caps
  end.

(** [a*?]: take as few as possible, one more on each failure. *)
Fixpoint star_lazy (a : atom) (s : jsstring) (caps : captures) (k : cont)
  : option (jsstring * captures) :=
  match k s caps with
  | Some res => Some res
  | None =>
      match s with
      | c :: s' => if atom_match a c then star_lazy a s' caps k else None
      | [] => None
      end
  end.

Fixpoint starts_with_ci (w s : jsstring) : option jsstring :=
  match w, s with
  | [], _ => Some s
  | x :: w', c :: s' => if (canon ic c =? canon ic x)%N then starts_with_ci w' s' else None
  | _ :: _, [] => None
  end.

(** The backtracking matcher, in continuation-passing style: [k] is what
    remains of the pattern, called on what remains of the input. *)
Fixpoint run (r : regex) (s : jsstring) (caps : captures) (k : cont)
  : option (jsstring * captures) :=
  match r with
  | Empty => k s caps
  | Atom a =>
      match s with
      | c :: s' => if atom_match a c then k s' caps else None
      | [] => None
      end
  | Seq r1 r2 => run r1 s caps (fun s' caps' => run r2 s' caps' k)
  | Alt r1 r2 =>
      match run r1 s caps k with
      | Some res => Some res
      | None => run r2 s caps k
      end
  | Star true a => star_greedy a s caps k
  | Star false a => star_lazy a s caps k
  | Group n r1 =>
      run r1 s caps
        (fun s' caps' => k s' ((n, firstn (length s - length s') s) :: caps'))
  | Backref n =>
      match cap_get n caps with
      | None => k s caps
      | Some w =>
          match starts_with_ci w s with
          | Some s' => k s' caps
          | None => None
          end
      end
  end.

(** A match that starts at the first character of [s]: what follows the
    match, and the captures. *)
Definition match_here (r : regex) (s : jsstring) : option (jsstring * captures) :=
  run r s [] (fun s' caps => Some (s', caps)).

Definition matched_len (s rest : jsstring) : nat := length s - length rest.

Record match_result : Type := MatchResult {
  m_index : nat;
  m_text : jsstring;
  m_groups : captures
}.

(** The leftmost match at or after the current position. *)
Fixpoint search_from (r : regex) (s : jsstring) (pos : nat) : option match_result :=
  match match_here r s with
  | Some (rest, caps) => Some (MatchResult pos (firstn (matched_len s rest) s) caps)
  | None =>
      match s with
      | _ :: s' => search_from r s' (S pos)
      | [] => None
      end
  end.

(** [String.prototype.replace] with a global pattern and a replacer
    function: every leftmost match that does not overlap an earlier one
    is replaced; after an empty match the scan moves on by one
    character.  [skip] counts the characters of the current match still
    to pass over. *)
Fixpoint replace_go (r : regex) (f : jsstring -> captures -> jsstring)
    (s : jsstring) (skip : nat) : jsstring :=
  match skip with
  | S n =>
      match s with
      | _ :: s' => replace_go r f s' n
      | [] => []
      end
  | O =>
      match match_here r s with
      | Some (rest, caps) =>
          f (firstn (matched_len s rest) s) caps ++
          match s with
          | c :: s' =>
              match matched_len s rest with
              | O => c :: replace_go r f s' 0
              | S n => replace_go r f s' n
              end
          | [] => []
          end
      | None =>
          match s with
          | c :: s' => c :: replace_go r f s' 0
          | [] => []
          end
      end
  end.

Definition replace_all (r : regex) (f : jsstring -> captures -> jsstring)
    (s : jsstring) : jsstring :=
  replace_go r f s 0.

(** The matches a [while ((match = regex.exec(source)))] loop visits with
    a global pattern that never matches the empty string. *)
Fixpoint exec_loop (r : regex) (s : jsstring) (skip : nat) : list (jsstring * captures) :=
  match skip with
  | S n =>
      match s with
      | _ :: s' => exec_loop r s' n
      | [] => []
      end
  | O =>
      match s with
      | c :: s' =>
          match match_here r s with
          | Some (rest, caps) =>
              (firstn (matched_len s rest) s, caps) :: exec_loop r s' (pred (matched_len s rest))
          | None => exec_loop r s' 0
          end
      | [] => []
      end
  end.

(** [String.prototype.split] with a pattern without capture groups. *)
Fixpoint split_go (r : regex) (s : jsstring) (cur : jsstring) (skip : nat)
  : list jsstring :=
  match skip with
  | S n =>
      match s with
      | _ :: s' => split_go r s' cur n
      | [] => [rev cur]
      end
  | O =>
      match s with
      | [] => [rev cur]
      | c :: s' =>
          match match_here r s with
          | Some (rest, _) =>
              match matched_len s rest, cur with
              | O, [] => split_go r s' [c] 0
              | O, _ :: _ => rev cur :: split_go r s' [c] 0
              | S n, _ => rev cur :: split_go r s' [] n
              end
          | None => split_go r s' (c :: cur) 0
          end
      end
  end.

Definition split (r : regex) (s : jsstring) : list jsstring :=
  match s with
  | [] => match match_here r [] with Some _ => [] | None => [[]] end
  | _ => split_go r s [] 0
  end.

End Matcher.

(** A replacement string without [$]. *)
Definition const_repl (w : jsstring) : jsstring -> captures -> jsstring :=
  fun _ _ => w.

(** The text of capture group [n], the empty string when it did not take part. *)
Definition group (n : nat) (caps : captures) : jsstring :=
  match cap_get n caps with Some w => w | None => [] end.

(** ** Regular expression objects

    A [RegExp] object carries its flags and a mutable [lastIndex].
    [RegExp.prototype.exec] reads and writes [lastIndex] only under the
    [g] flag (no pattern of the module is sticky). *)

Record RegExp : Type := mkRegExp {
  re_source : regex;
  re_ignoreCase : bool;
  re_global : bool
}.

Definition RegExp_exec (R : RegExp) (lastIndex : nat) (S : jsstring)
  : option match_result * nat :=
  let start := if re_global R then lastIndex else 0 in
  if length S <? start then (None, if re_global R then 0 else lastIndex)
  else
    match search_from (re_ignoreCase R) (re_source R) (skipn start S) start with
    | Some m => (Some m, if re_global R then m_index m + length (m_text m) else lastIndex)
    | None => (None, if re_global R then 0 else lastIndex)
    end.

(** [s.replace(R, f)] for a pattern with the [g] flag: the scan starts from
    a [lastIndex] reset to 0. *)
Definition String_replace (R : RegExp) (f : jsstring -> captures -> jsstring)
    (s : jsstring) : jsstring :=
  replace_all (re_ignoreCase R) (re_source R) f s.

(** ** The module *)

(** [/<section[^>]*id=([\x22'])hero\1[\s\S]*?<\/section>/i] *)
Definition HERO_SECTION_REGEX : RegExp :=
  mkRegExp
    (lit "<section" ;; Star true (none_of [ch ">"]) ;; lit "id=" ;;
     Group 1 (Atom (one_of [CChar dqc; ch "'"])) ;; lit "hero" ;; Backref 1 ;;
     Star false any ;; lit "</section>")%re
    true false.

(** [/<main[\s\S]*?<\/main>/i] *)
Definition MAIN_SECTION_REGEX : RegExp :=
  mkRegExp (lit "<main" ;; Star false any ;; lit "</main>")%re true false.

Record ExtractionResult : Type := mkExtractionResult {
  sanitizedHtml : jsstring;
  rawSection : jsstring
}.

(** *** stripJsxArtifacts *)

Definition g (r : regex) : RegExp := mkRegExp r false true.
Definition gi (r : regex) : RegExp := mkRegExp r true true.

(** [/\{\s*\/\*[\s\S]*?\*\/\s*\}/g] *)
Definition jsx_comment : RegExp :=
  g (chr "{" ;; Star true space ;; lit "/*" ;; Star false any ;; lit "*/" ;;
     Star true space ;; chr "}")%re.

(** [/\{\s*[\x22'`]\s*\}/g] *)
Definition jsx_empty_quote : RegExp :=
  g (chr "{" ;; Star true space ;; Atom (one_of [CChar dqc; ch "'"; ch "`"]) ;;
     Star true space ;; chr "}")%re.

(** [prefix\{\s* q ([^q]+) q \s*\}] for a quote character [q]. *)
Definition braced_string (prefix : string) (q : code_unit) : regex :=
  (lit prefix ;; chr "{" ;; Star true space ;; Atom (AChar q) ;;
   Group 1 (Plus true (none_of [CChar q])) ;; Atom (AChar q) ;;
   Star true space ;; chr "}")%re.

Definition stripJsxArtifacts (source : jsstring) : jsstring :=
  let s1 := String_replace jsx_comment (const_repl []) source in
  let s2 := String_replace jsx_empty_quote (const_repl (js " ")) s1 in
  let s3 := String_replace (g (braced_string "" (cu "`"))) (fun _ caps => group 1 caps) s2 in
  let s4 := String_replace (g (braced_string "" dqc)) (fun _ caps => group 1 caps) s3 in
  let s5 := String_replace (g (braced_string "" (cu "'"))) (fun _ caps => group 1 caps) s4 in
  let s6 := String_replace (g (lit "<>"))
              (const_repl (js "<div class=" ++ quoted "arena-fragment" ++ js ">")) s5 in
  String_replace (g (lit "</>")) (const_repl (js "</div>")) s6.

(** *** convertClassBindings *)

Definition class_attr (classes : jsstring) : jsstring :=
  js "class=" ++ dq ++ classes ++ dq.

(** [/class=\{\s*([^}]+)\s*\}/g] *)
Definition class_expr : RegExp :=
  g (lit "class=" ;; chr "{" ;; Star true space ;;
     Group 1 (Plus true (none_of [ch "}"])) ;; Star true space ;; chr "}")%re.

(** [/[\s+|]+/] *)
Definition class_expr_sep : regex := Plus true (one_of [CSpace; ch "+"; ch "|"]).

(** [/[\x22'`]/g] *)
Definition any_quote : RegExp := g (Atom (one_of [CChar dqc; ch "'"; ch "`"])).

Definition flatten_class_expr (expr : jsstring) : jsstring :=
  join (js " ")
    (filter truthy
       (map (fun token => trim (String_replace any_quote (const_repl []) token))
          (split false class_expr_sep expr))).

Definition convertClassBindings (source : jsstring) : jsstring :=
  let s1 := String_replace (g (lit "className=")) (const_repl (js "class=")) source in
  let s2 := String_replace (g (braced_string "class=" (cu "`")))
              (fun _ caps => class_attr (group 1 caps)) s1 in
  let s3 := String_replace (g (braced_string "class=" dqc))
              (fun _ caps => class_attr (group 1 caps)) s2 in
  let s4 := String_replace (g (braced_string "class=" (cu "'")))
              (fun _ caps => class_attr (group 1 caps)) s3 in
  String_replace class_expr
    (fun _ caps => class_attr (flatten_class_expr (group 1 caps))) s4.

(** *** Attributes

    A tag's attributes are held in a plain object: own string-keyed
    properties, enumerated in the order they were first added.  A key that
    is assigned again keeps its place and takes the new value.  Assigning
    a string to the key [__proto__] adds nothing to the object. *)

Definition jsobject := list (jsstring * jsstring).

Fixpoint obj_get (key : jsstring) (o : jsobject) : option jsstring :=
  match o with
  | [] => None
  | (k, v) :: o' => if jsstring_eqb k key then Some v else obj_get key o'
  end.

Fixpoint obj_put (key value : jsstring) (o : jsobject) : jsobject :=
  match o with
  | [] => [(key, value)]
  | (k, v) :: o' =>
      if jsstring_eqb k key then (k, value) :: o' else (k, v) :: obj_put key value o'
  end.

Definition obj_set (key value : jsstring) (o : jsobject) : jsobject :=
  if jsstring_eqb key (js "__proto__") then o else obj_put key value o.

Definition obj_delete (key : jsstring) (o : jsobject) : jsobject :=
  filter (fun kv => negb (jsstring_eqb (fst kv) key)) o.

(** The pattern of [parseAttributes], with the [g] flag: group 1 is
    [[a-zA-Z_:][a-zA-Z0-9_:.-]*], then [\s*=\s*], then group 2, one of
    [{[^}]*}], [\x22[^\x22]*\x22] and ['[^']*']. *)
Definition attribute_regex : RegExp :=
  g (Group 1 (Atom (one_of [rng "a" "z"; rng "A" "Z"; ch "_"; ch ":"]) ;;
              Star true (one_of [rng "a" "z"; rng "A" "Z"; rng "0" "9";
                                 ch "_"; ch ":"; ch "."; ch "-"])) ;;
     Star true space ;; chr "=" ;; Star true space ;;
     Group 2 (Alt (chr "{" ;; Star true (none_of [ch "}"]) ;; chr "}")
             (Alt (Atom (AChar dqc) ;; Star true (none_of [CChar dqc]) ;; Atom (AChar dqc))
                  (chr "'" ;; Star true (none_of [ch "'"]) ;; chr "'"))))%re.

Definition unwrapAttributeValue (value : jsstring) : jsstring :=
  let trimmed := trim value in
  if negb (truthy trimmed) then []
  else if (starts_with (cu "{") trimmed && ends_with (cu "}") trimmed)
          || (starts_with (cu "(") trimmed && ends_with (cu ")") trimmed)
  then trim (slice_1_m1 trimmed)
  else if (starts_with dqc trimmed && ends_with dqc trimmed)
          || (starts_with (cu "'") trimmed && ends_with (cu "'") trimmed)
  then slice_1_m1 trimmed
  else trimmed.

(** The [(key, rawValue)] pairs the scan of [parseAttributes] visits, in
    order. *)
Definition attribute_matches (source : jsstring) : list (jsstring * jsstring) :=
  map (fun m => (group 1 (snd m), group 2 (snd m)))
    (exec_loop false (re_source attribute_regex) source 0).

Definition parseAttributes (source : jsstring) : jsobject :=
  fold_left (fun attrs kv => obj_set (fst kv) (unwrapAttributeValue (snd kv)) attrs)
    (attribute_matches source) [].

(** [/[`\x22'{}]/g] and [/\s+/] *)
Definition class_noise : RegExp :=
  g (Atom (one_of [ch "`"; CChar dqc; ch "'"; ch "{"; ch "}"])).
Definition spaces : regex := Plus true space.

Definition splitClasses (value : option jsstring) : list jsstring :=
  match value with
  | None => []
  | Some v =>
      if negb (truthy v) then []
      else filter truthy (split false spaces (String_replace class_noise (const_repl (js " ")) v))
  end.

Definition escapeAttribute (value : jsstring) : jsstring :=
  let s1 := String_replace (g (chr "&")) (const_repl (js "&amp;")) value in
  let s2 := String_replace (g (Atom (AChar dqc))) (const_repl (js "&quot;")) s1 in
  let s3 := String_replace (g (chr "<")) (const_repl (js "&lt;")) s2 in
  String_replace (g (chr ">")) (const_repl (js "&gt;")) s3.

Definition includes (l : list jsstring) (x : jsstring) : bool :=
  existsb (jsstring_eqb x) l.

(** A property read as a condition: present and not the empty string. *)
Definition obj_truthy (key : jsstring) (o : jsobject) : bool :=
  match obj_get key o with Some v => truthy v | None => false end.

Definition buildTagAttributes (attrs : jsstring) (baseClass : jsstring)
    (stripAttrs : list jsstring) (keepOnly : option (list jsstring)) : jsstring :=
  let parsed := parseAttributes attrs in
  let parsed := fold_left (fun o key => obj_delete key o) stripAttrs parsed in
  let parsed :=
    match keepOnly with
    | Some ((_ :: _) as keep) =>
        fold_left (fun o key => if negb (includes keep key) then obj_delete key o else o)
          (map fst parsed) parsed
    | _ => parsed
    end in
  let classes := [baseClass] in
  let '(classes, parsed) :=
    if obj_truthy (js "className") parsed
    then (classes ++ splitClasses (obj_get (js "className") parsed),
          obj_delete (js "className") parsed)
    else (classes, parsed) in
  let '(classes, parsed) :=
    if obj_truthy (js "class") parsed
    then (classes ++ splitClasses (obj_get (js "class") parsed),
          obj_delete (js "class") parsed)
    else (classes, parsed) in
  let attrPairs :=
    join (js " ")
      (map (fun kv => fst kv ++ js "=" ++ dq ++ escapeAttribute (snd kv) ++ dq) parsed) in
  js " class=" ++ dq ++ join (js " ") (filter truthy classes) ++ dq ++
  (if truthy attrPairs then js " " ++ attrPairs else []).

(** *** convertCustomComponents

    [componentName] is spliced into the pattern text; every name in the
    table is made of letters only, so it stands for itself. *)

(** [<Name], group 1 [[^>]*], [>]; and [</Name>]; both with the [g] flag. *)
Definition openingTagRegex (componentName : string) : RegExp :=
  g (lit ("<" ++ componentName) ;; Group 1 (Star true (none_of [ch ">"])) ;; chr ">")%re.

Definition closingTagRegex (componentName : string) : RegExp :=
  g (lit ("</" ++ componentName ++ ">")).

(** [<Name], group 1 [[^>]*], [/>]; with the [g] flag. *)
Definition selfClosingRegex (componentName : string) : RegExp :=
  g (lit ("<" ++ componentName) ;; Group 1 (Star true (none_of [ch ">"])) ;; lit "/>")%re.

Definition replaceComponent (source : jsstring) (componentName tagName baseClass : string)
    (stripAttrs : list string) : jsstring :=
  let transformAttrs attrs :=
    buildTagAttributes attrs (js baseClass) (map js stripAttrs) None in
  let s1 := String_replace (openingTagRegex componentName)
              (fun _ caps => js "<" ++ js tagName ++ transformAttrs (group 1 caps) ++ js ">")
              source in
  String_replace (closingTagRegex componentName)
    (const_repl (js "</" ++ js tagName ++ js ">")) s1.

Definition replaceSelfClosing (source : jsstring) (componentName tagName baseClass : string)
    (keepAttrs : list string) : jsstring :=
  String_replace (selfClosingRegex componentName)
    (fun _ caps =>
       let mapped := buildTagAttributes (group 1 caps) (js baseClass) [] (Some (map js keepAttrs)) in
       js "<" ++ js tagName ++ mapped ++ js "></" ++ js tagName ++ js ">")
    source.

Open Scope string_scope.

Definition convertCustomComponents (source : jsstring) : jsstring :=
  let output := source in
  let output := replaceComponent output "Button" "button" "arena-btn" ["variant"; "size"; "asChild"] in
  let output := replaceComponent output "Badge" "span" "arena-badge" [] in
  let output := replaceComponent output "Card" "div" "arena-card" [] in
  let output := replaceComponent output "CardHeader" "div" "arena-card__header" [] in
  let output := replaceComponent output "CardContent" "div" "arena-card__content" [] in
  let output := replaceComponent output "CardTitle" "h3" "arena-card__title" [] in
  let output := replaceComponent output "CardDescription" "p" "arena-card__description" [] in
  let output := replaceComponent output "CardFooter" "div" "arena-card__footer" [] in
  let output := replaceComponent output "Tabs" "div" "arena-tabs" [] in
  let output := replaceComponent output "TabsList" "div" "arena-tabs__list" [] in
  let output := replaceComponent output "TabsTrigger" "button" "arena-tabs__trigger" ["value"] in
  let output := replaceComponent output "TabsContent" "div" "arena-tabs__content" ["value"] in
  let output := replaceComponent output "Link" "a" "arena-link" ["prefetch"; "legacyBehavior"] in
  let output := replaceComponent output "Input" "input" "arena-input" ["type"] in
  let output := replaceComponent output "Label" "label" "arena-label" [] in
  let output := replaceComponent output "Textarea" "textarea" "arena-textarea" [] in
  let output := replaceComponent output "Avatar" "div" "arena-avatar" [] in
  let output := replaceComponent output "AvatarImage" "div" "arena-avatar__image" ["src"; "alt"] in
  let output := replaceComponent output "AvatarFallback" "span" "arena-avatar__fallback" [] in
  let output := replaceSelfClosing output "Image" "div" "arena-image" ["src"; "alt"; "width"; "height"] in
  output.

Close Scope string_scope.

(** *** sanitizeMarkup *)

(** [\son[a-z]+\s*=\s*] followed by [value]. *)
Definition handler_attr (value : regex) : regex :=
  (Atom space ;; lit "on" ;; Plus true (one_of [rng "a" "z"]) ;;
   Star true space ;; chr "=" ;; Star true space ;; value)%re.

(** [open[^close]*close] *)
Definition delimited (open close : code_unit) : regex :=
  (Atom (AChar open) ;; Star true (none_of [CChar close]) ;; Atom (AChar close))%re.

(** [/<script[\s\S]*?<\/script>/gi] *)
Definition script_block : RegExp :=
  gi (lit "<script" ;; Star false any ;; lit "</script>")%re.

(** The seven patterns, in the order [sanitizeMarkup] applies them; each
    has the flags [gi] and the empty replacement. *)
Definition sanitizer_patterns : list RegExp :=
  [ script_block;
    gi (handler_attr (delimited dqc dqc));
    gi (handler_attr (delimited (cu "'") (cu "'")));
    gi (handler_attr (delimited (cu "{") (cu "}")));
    gi (lit "style=" ;; delimited (cu "{") (cu "}"))%re;
    gi (lit "style=" ;; delimited dqc dqc)%re;
    gi (lit "style=" ;; delimited (cu "'") (cu "'"))%re ].

Definition sanitizeMarkup (source : jsstring) : jsstring :=
  fold_left (fun s R => String_replace R (const_repl []) s) sanitizer_patterns source.

(** *** The extractor *)

Definition normalizeSection (section : jsstring) : jsstring :=
  if negb (truthy section) then []
  else
    let output := section in
    let output := stripJsxArtifacts output in
    let output := convertClassBindings output in
    let output := convertCustomComponents output in
    let output := sanitizeMarkup output in
    output.

(** The state of the module between calls: the [lastIndex] of its two
    pattern objects. *)
Record module_state : Type := mkState {
  hero_lastIndex : nat;
  main_lastIndex : nat
}.

Definition initial_state : module_state := mkState 0 0.

Definition extractFallbackSection_in (st : module_state) (source : jsstring)
  : option jsstring * module_state :=
  let '(mainMatch, li) := RegExp_exec MAIN_SECTION_REGEX (main_lastIndex st) source in
  let st' := mkState (hero_lastIndex st) li in
  match mainMatch with
  | Some m => if truthy (m_text m) then (Some (m_text m), st')
              else (if truthy (trim source) then Some (trim source) else None, st')
  | None => (if truthy (trim source) then Some (trim source) else None, st')
  end.

Definition extractPrimarySection_in (st : module_state) (responseText : jsstring)
  : ExtractionResult * module_state :=
  let '(heroMatch, li) := RegExp_exec HERO_SECTION_REGEX (hero_lastIndex st) responseText in
  let st1 := mkState li (main_lastIndex st) in
  let '(rawSection, st2) :=
    match heroMatch with
    | Some m => (m_text m, st1)
    | None =>
        let '(fallback, st2) := extractFallbackSection_in st1 responseText in
        (match fallback with Some s => s | None => responseText end, st2)
    end in
  let normalized := normalizeSection rawSection in
  (mkExtractionResult normalized rawSection, st2).

(** A call in a freshly loaded module. *)
Definition extractFallbackSection (source : jsstring) : option jsstring :=
  fst (extractFallbackSection_in initial_state source).

Definition extractPrimarySection (responseText : jsstring) : ExtractionResult :=
  fst (extractPrimarySection_in initial_state responseText).

(** ** Vocabulary of the properties *)

(** *** Texts *)

Definition lt_sign : code_unit := cu "<".
Definition gt_sign : code_unit := cu ">".
Definition eq_sign : code_unit := cu "=".

Definition is_letter (c : code_unit) : bool := is_lower c || is_upper c.

Definition not_space (c : code_unit) : bool := negb (is_space c).

(** The empty string, or white space only. *)
Definition all_space (s : jsstring) : Prop := Forall (fun c => is_space c = true) s.

(** The character [x] does not occur in [s]. *)
Definition lacks (x : code_unit) (s : jsstring) : Prop :=
  Forall (fun c => (c =? x)%N = false) s.

(** Equal up to the case of ASCII letters. *)
Definition same_ci (a b : jsstring) : Prop := map to_upper a = map to_upper b.

(** [w] occurs in [s], letter case ignored or not. *)
Fixpoint occurs (ic : bool) (w s : jsstring) : bool :=
  match starts_with_ci ic w s with
  | Some _ => true
  | None => match s with _ :: s' => occurs ic w s' | [] => false end
  end.

(** *** Matches *)

(** [RegExp.prototype.test] from the start of [s]: the pattern matches
    somewhere in [s]. *)
Definition test (R : RegExp) (s : jsstring) : bool :=
  match search_from (re_ignoreCase R) (re_source R) s 0 with
  | Some _ => true
  | None => false
  end.

(** The pattern has no match that starts anywhere in [s]. *)
Fixpoint quiet (ic : bool) (r : regex) (s : jsstring) : Prop :=
  match_here ic r s = None /\
  match s with
  | [] => True
  | _ :: s' => quiet ic r s'
  end.

(** [lang ic r w]: the word [w] has the shape of [r].  A backreference is
    left unconstrained, so [lang] is an upper bound of what [run] accepts. *)
Fixpoint lang (ic : bool) (r : regex) (w : jsstring) : Prop :=
  match r with
  | Empty => w = []
  | Atom a => exists c, w = [c] /\ atom_match ic a c = true
  | Seq r1 r2 => exists w1 w2, w = w1 ++ w2 /\ lang ic r1 w1 /\ lang ic r2 w2
  | Alt r1 r2 => lang ic r1 w \/ lang ic r2 w
  | Star _ a => Forall (fun c => atom_match ic a c = true) w
  | Group _ r1 => lang ic r1 w
  | Backref _ => True
  end.

(** Every match of [r] contains a character that satisfies [q]: some
    literal character of [r] that no match can avoid does, in each letter
    case the flag lets it take. *)
Fixpoint needs (ic : bool) (q : code_unit -> bool) (r : regex) : bool :=
  match r with
  | Atom (AChar x) => if ic then q x && q (to_upper x) && q (to_lower x) else q x
  | Seq r1 r2 => needs ic q r1 || needs ic q r2
  | Alt r1 r2 => needs ic q r1 && needs ic q r2
  | Group _ r1 => needs ic q r1
  | _ => false
  end.

(** A lower bound on the length of a match. *)
Fixpoint min_len (r : regex) : nat :=
  match r with
  | Atom _ => 1
  | Seq r1 r2 => min_len r1 + min_len r2
  | Alt r1 r2 => Nat.min (min_len r1) (min_len r2)
  | Group _ r1 => min_len r1
  | _ => 0
  end.

(** The text [s] does not go on with a character of [a]. *)
Definition stops (ic : bool) (a : atom) (s : jsstring) : Prop :=
  match s with
  | c :: _ => atom_match ic a c = false
  | [] => True
  end.

(** *** The extractor *)

Definition hero_match (s : jsstring) : option jsstring :=
  option_map (@m_text) (fst (RegExp_exec HERO_SECTION_REGEX 0 s)).

Definition main_match (s : jsstring) : option jsstring :=
  option_map (@m_text) (fst (RegExp_exec MAIN_SECTION_REGEX 0 s)).

(** [rawSection] as the decision tree of the extractor reads. *)
Definition selected (s : jsstring) : jsstring :=
  match hero_match s with
  | Some h => h
  | None =>
      match main_match s with
      | Some m => m
      | None => if truthy (trim s) then trim s else s
      end
  end.


(** *** The attribute parser *)

(** The raw value of the last scanned pair whose key is [key]. *)
Definition last_raw (key : jsstring) (l : list (jsstring * jsstring)) : option jsstring :=
  fold_left (fun acc kv => if jsstring_eqb (fst kv) key then Some (snd kv) else acc) l None.

(** *** The sanitizer *)

(** A list of deleting passes, applied in order. *)
Definition passes (l : list RegExp) (s : jsstring) : jsstring :=
  fold_left (fun s R => String_replace R (const_repl []) s) l s.



(** The three value forms of an attribute, with their delimiters. *)
Inductive value_form : Type := DoubleQuoted | SingleQuoted | Braced.

Definition form_open (f : value_form) : code_unit :=
  match f with DoubleQuoted => dqc | SingleQuoted => cu "'" | Braced => cu "{" end.

Definition form_close (f : value_form) : code_unit :=
  match f with DoubleQuoted => dqc | SingleQuoted => cu "'" | Braced => cu "}" end.










(** *** The rewriting stages *)

Open Scope string_scope.


Close Scope string_scope.


(** *** Characters of markup and of class lists *)

Definition amp_sign : code_unit := cu "&".

(** The four characters [escapeAttribute] rewrites. *)
Definition markup_special (c : code_unit) : bool :=
  ((c =? amp_sign) || (c =? dqc) || (c =? lt_sign) || (c =? gt_sign))%N.

(** What [splitClasses] turns into a space before it splits. *)
Definition is_class_noise (c : code_unit) : bool :=
  ((c =? cu "`") || (c =? dqc) || (c =? cu "'") || (c =? cu "{") || (c =? cu "}"))%N.

(** A character a class token can have: no white space and no noise. *)
Definition class_char (c : code_unit) : bool := negb (is_space c) && negb (is_class_noise c).

Definition is_quote (c : code_unit) : bool :=
  ((c =? dqc) || (c =? cu "'") || (c =? cu "`"))%N.

(** A character a token of a flattened class expression can have. *)
Definition expr_char (c : code_unit) : bool :=
  negb (is_space c) && negb (is_quote c) && negb (c =? cu "+")%N && negb (c =? cu "|")%N.

Definition is_open_brace (c : code_unit) : bool := (c =? cu "{")%N.

Definition is_eq_sign (c : code_unit) : bool := (c =? eq_sign)%N.

(** The three characters a value the attribute pattern accepts can start
    with. *)
Definition is_value_open (c : code_unit) : bool :=
  ((c =? cu "{") || (c =? dqc) || (c =? cu "'"))%N.

Definition not_gt (c : code_unit) : bool := negb (to_upper c =? 62)%N.

(** [subseq a b]: [a] is [b] with some characters left out. *)
Inductive subseq : jsstring -> jsstring -> Prop :=
| subseq_nil : subseq [] []
| subseq_keep (c : code_unit) (a b : jsstring) : subseq a b -> subseq (c :: a) (c :: b)
| subseq_drop (c : code_unit) (a b : jsstring) : subseq a b -> subseq a (c :: b).

(** *** Literal patterns *)

(** [t] and [v] differ at a position both have. *)
Fixpoint clash (t v : jsstring) : bool :=
  match t, v with
  | a :: t', b :: v' => negb (a =? b)%N || clash t' v'
  | _, _ => false
  end.

(** [t] clashes with every non-empty end of [u]: no occurrence of [t]
    starts inside [u], whatever follows [u]. *)
Fixpoint all_clash (t u : jsstring) : bool :=
  match u with
  | [] => true
  | _ :: u' => clash t u && all_clash t u'
  end.

(** Wherever [t] starts in [s], the literal [w] starts too. *)
Fixpoint covered (w : string) (t s : jsstring) : Prop :=
  (starts_with_ci false t s = None \/ starts_with_ci false (js w) s <> None) /\
  match s with
  | [] => True
  | _ :: s' => covered w t s'
  end.

(** *** Tags of components *)

(** [s] starts with [<] and a capital letter, or with [</] and a capital
    letter: the way every tag that [convertCustomComponents] looks for
    starts. *)
Definition capital_tag_here (s : jsstring) : bool :=
  match s with
  | c :: d :: s' =>
      (c =? lt_sign)%N &&
      (is_upper d || ((d =? cu "/")%N && match s' with e :: _ => is_upper e | [] => false end))
  | _ => false
  end.

Fixpoint has_capital_tag (s : jsstring) : bool :=
  capital_tag_here s || match s with _ :: s' => has_capital_tag s' | [] => false end.

(** *** Patterns without groups, and matches that are sure *)

Fixpoint plain (r : regex) : bool :=
  match r with
  | Group _ _ => false
  | Seq r1 r2 | Alt r1 r2 => plain r1 && plain r2
  | _ => true
  end.

(** [hits ic r w s' caps caps']: on [w ++ s'] the pattern [r] takes [w]
    at its first try and leaves the captures [caps'], whenever what
    follows it in the pattern accepts that. *)
Definition hits (ic : bool) (r : regex) (w s' : jsstring) (caps caps' : captures) : Prop :=
  forall (k : cont) res, k s' caps' = Some res -> run ic r (w ++ s') caps k = Some res.

(** *** Attributes as they are written *)

Definition is_digit (c : code_unit) : bool := ((48 <=? c) && (c <=? 57))%N.

(** [[a-zA-Z_:]] and [[a-zA-Z0-9_:.-]]. *)
Definition name_start (c : code_unit) : bool :=
  (is_lower c || is_upper c || (c =? cu "_") || (c =? cu ":"))%N.

Definition name_char (c : code_unit) : bool :=
  (is_lower c || is_upper c || is_digit c || (c =? cu "_") || (c =? cu ":") || (c =? cu ".")
   || (c =? cu "-"))%N.

(** A key the pattern of [parseAttributes] can capture. *)
Definition attribute_name (k : jsstring) : bool :=
  match k with
  | c :: k' => name_start c && forallb name_char k'
  | [] => false
  end.

Definition name_start_class : atom := one_of [rng "a" "z"; rng "A" "Z"; ch "_"; ch ":"].
Definition name_char_class : atom :=
  one_of [rng "a" "z"; rng "A" "Z"; rng "0" "9"; ch "_"; ch ":"; ch "."; ch "-"].

(** A value between the delimiters of its form. *)
Definition raw_value (f : value_form) (v : jsstring) : jsstring :=
  [form_open f] ++ v ++ [form_close f].

(** An entry of the attribute object whose key is a name and whose
    characters all satisfy [Q]. *)
Definition entry_ok (Q : code_unit -> Prop) (kv : jsstring * jsstring) : Prop :=
  attribute_name (fst kv) = true /\ Forall Q (fst kv) /\ Forall Q (snd kv).

(** An attribute as [buildTagAttributes] writes it, and as it is written
    once its value is escaped. *)
Definition render_attribute (kv : jsstring * jsstring) : jsstring :=
  fst kv ++ js "=" ++ dq ++ escapeAttribute (snd kv) ++ dq.

Definition written (kv : jsstring * jsstring) : jsstring :=
  fst kv ++ js "=" ++ dq ++ snd kv ++ dq.

(** The key [k] is outside a non-empty [keepOnly] list. *)
Definition keep_drops (keepOnly : option (list jsstring)) (k : jsstring) : bool :=
  match keepOnly with
  | Some ((_ :: _) as keep) => negb (includes keep k)
  | _ => false
  end.

(** ** The matcher *)

Lemma jsstring_eqb_eq (a b : jsstring) : jsstring_eqb a b = true <-> a = b.
Proof.
  unfold jsstring_eqb. destruct (list_eq_dec N.eq_dec a b); split; congruence.
Qed.

Lemma jsstring_eqb_refl (a : jsstring) : jsstring_eqb a a = true.
Proof. now apply jsstring_eqb_eq. Qed.

Lemma jsstring_eqb_neq (a b : jsstring) : a <> b -> jsstring_eqb a b = false.
Proof.
  intros H. destruct (jsstring_eqb a b) eqn:E; auto.
  apply jsstring_eqb_eq in E. contradiction.
Qed.

Lemma canon_cases (ic : bool) (c x : code_unit) :
  canon ic c = canon ic x -> c = x \/ c = to_upper x \/ c = to_lower x.
Proof.
  unfold canon, to_upper, to_lower, is_lower, is_upper.
  destruct ic; [|auto].
  destruct ((97 <=? c) && (c <=? 122))%N eqn:Hc;
  destruct ((97 <=? x) && (x <=? 122))%N eqn:Hx;
  destruct ((65 <=? x) && (x <=? 90))%N eqn:Hu;
  rewrite ?andb_true_iff, ?andb_false_iff, ?N.leb_le, ?N.leb_gt in *; lia.
Qed.

Section MatcherFacts.

Variable ic : bool.

Lemma starts_with_ci_app (w s s' : jsstring) :
  starts_with_ci ic w s = Some s' -> exists w', s = w' ++ s' /\ length w' = length w.
Proof.
  revert s. induction w as [|x w IH]; intros s H; simpl in H.
  - inversion H. exists []. auto.
  - destruct s as [|c s]; [discriminate|].
    destruct (canon ic c =? canon ic x)%N; [|discriminate].
    destruct (IH _ H) as (w' & -> & Hl). exists (c :: w'). simpl. auto.
Qed.

(** Whatever [run] accepts, it accepts by consuming a word of the shape
    of the pattern and handing the rest to its continuation. *)
Lemma run_sound (r : regex) : forall s caps k res,
  run ic r s caps k = Some res ->
  exists w s' caps', s = w ++ s' /\ lang ic r w /\ k s' caps' = Some res.
Proof.
  induction r as [|a|r1 IH1 r2 IH2|r1 IH1 r2 IH2|gr a|n r1 IH1|n];
    intros s caps k res H; simpl in H.
  - exists [], s, caps. simpl. auto.
  - destruct s as [|c s]; [discriminate|].
    destruct (atom_match ic a c) eqn:E; [|discriminate].
    exists [c], s, caps. simpl. eauto.
  - apply IH1 in H. destruct H as (w1 & s1 & caps1 & -> & L1 & H).
    apply IH2 in H. destruct H as (w2 & s2 & caps2 & -> & L2 & H).
    exists (w1 ++ w2), s2, caps2. rewrite app_assoc. simpl. eauto 8.
  - destruct (run ic r1 s caps k) eqn:E.
    + inversion H; subst. apply IH1 in E.
      destruct E as (w & s' & caps' & -> & L & E). exists w, s', caps'. simpl. auto.
    + apply IH2 in H.
      destruct H as (w & s' & caps' & -> & L & E'). exists w, s', caps'. simpl. auto.
  - destruct gr.
    + revert H. induction s as [|c s IHs]; simpl; intros H.
      * exists [], [], caps. simpl. auto.
      * destruct (atom_match ic a c) eqn:E.
        -- destruct (star_greedy ic a s caps k) eqn:E2.
           ++ inversion H; subst.
              destruct (IHs eq_refl) as (w & s' & caps' & -> & L & K).
              exists (c :: w), s', caps'. simpl in *. auto.
           ++ exists [], (c :: s), caps. simpl. auto.
        -- exists [], (c :: s), caps. simpl. auto.
    + revert H. induction s as [|c s IHs]; simpl; intros H.
      * destruct (k [] caps) eqn:E; [|discriminate].
        exists [], [], caps. simpl. inversion H; subst. auto.
      * destruct (k (c :: s) caps) eqn:E.
        -- inversion H; subst. exists [], (c :: s), caps. simpl. auto.
        -- destruct (atom_match ic a c) eqn:E2; [|discriminate].
           destruct (IHs H) as (w & s' & caps' & -> & L & K).
           exists (c :: w), s', caps'. simpl in *. auto.
  - apply IH1 in H. destruct H as (w & s' & caps' & -> & L & H).
    exists w, s'. eexists. simpl. eauto.
  - destruct (cap_get n caps) as [w|].
    + destruct (starts_with_ci ic w s) as [s'|] eqn:E; [|discriminate].
      apply starts_with_ci_app in E. destruct E as (w' & -> & _).
      exists w', s', caps. simpl. auto.
    + exists [], s, caps. simpl. auto.
Qed.

Lemma match_here_sound (r : regex) (s rest : jsstring) (caps : captures) :
  match_here ic r s = Some (rest, caps) ->
  exists w, s = w ++ rest /\ lang ic r w.
Proof.
  unfold match_here. intros H. apply run_sound in H.
  destruct H as (w & s' & caps' & -> & L & H). inversion H; subst. eauto.
Qed.

Lemma lang_min_len (r : regex) : forall w, lang ic r w -> min_len r <= length w.
Proof.
  induction r as [|a|r1 IH1 r2 IH2|r1 IH1 r2 IH2|gr a|n r1 IH1|n]; intros w L; simpl in *;
    try lia.
  - destruct L as (c & -> & _). simpl. lia.
  - destruct L as (w1 & w2 & -> & L1 & L2). rewrite length_app.
    apply IH1 in L1. apply IH2 in L2. lia.
  - destruct L as [L|L]; [apply IH1 in L|apply IH2 in L]; lia.
  - auto.
Qed.

Lemma lang_needs (q : code_unit -> bool) (r : regex) : forall w,
  needs ic q r = true -> lang ic r w -> exists c, In c w /\ q c = true.
Proof.
  induction r as [|a|r1 IH1 r2 IH2|r1 IH1 r2 IH2|gr a|n r1 IH1|n]; intros w N L; simpl in *;
    try discriminate.
  - destruct a as [x|]; [|discriminate].
    destruct L as (c & -> & M). simpl in M. apply N.eqb_eq in M.
    exists c. split; [simpl; auto|].
    destruct ic.
    + apply canon_cases in M.
      rewrite !andb_true_iff in N. destruct N as [[N1 N2] N3].
      destruct M as [->|[->| ->]]; assumption.
    + simpl in M. now subst c.
  - destruct L as (w1 & w2 & -> & L1 & L2).
    apply orb_true_iff in N. destruct N as [N|N].
    + destruct (IH1 _ N L1) as (c & I & Q). exists c. rewrite in_app_iff. auto.
    + destruct (IH2 _ N L2) as (c & I & Q). exists c. rewrite in_app_iff. auto.
  - apply andb_true_iff in N. destruct N as [N1 N2].
    destruct L as [L|L]; eauto.
  - eauto.
Qed.

(** A pattern that needs a character the input does not have matches
    nowhere in it. *)
Lemma match_here_needs (q : code_unit -> bool) (r : regex) (s : jsstring) :
  needs ic q r = true -> Forall (fun c => q c = false) s -> match_here ic r s = None.
Proof.
  intros N F. destruct (match_here ic r s) as [[rest caps]|] eqn:E; [|reflexivity].
  apply match_here_sound in E. destruct E as (w & -> & L).
  destruct (lang_needs q r w N L) as (c & I & Q).
  rewrite Forall_forall in F. rewrite F in Q; [discriminate|].
  rewrite in_app_iff. auto.
Qed.

Lemma match_here_shorter (r : regex) (s rest : jsstring) (caps : captures) :
  match_here ic r s = Some (rest, caps) -> length rest + min_len r <= length s.
Proof.
  intros H. apply match_here_sound in H. destruct H as (w & -> & L).
  apply lang_min_len in L. rewrite length_app. lia.
Qed.

End MatcherFacts.

(** ** Global replacement *)

Section ReplaceFacts.

Variable ic : bool.
Variable r : regex.

Lemma search_from_quiet (s : jsstring) (pos : nat) :
  search_from ic r s pos = None <-> quiet ic r s.
Proof.
  revert pos. induction s as [|c s IH]; intros pos; simpl.
  - destruct (match_here ic r []) as [[rest caps]|]; intuition discriminate.
  - destruct (match_here ic r (c :: s)) as [[rest caps]|].
    + intuition discriminate.
    + rewrite IH. intuition.
Qed.

Lemma quiet_needs (q : code_unit -> bool) (s : jsstring) :
  needs ic q r = true -> Forall (fun c => q c = false) s -> quiet ic r s.
Proof.
  intros N F. induction F as [|c s Hc F IH]; simpl.
  - split; [|exact I]. apply match_here_needs with (q := q); auto.
  - split; [|exact IH]. apply match_here_needs with (q := q); auto.
Qed.

Variable f : jsstring -> captures -> jsstring.

Lemma replace_go_skip (w rest : jsstring) :
  replace_go ic r f (w ++ rest) (length w) = replace_go ic r f rest 0.
Proof. induction w as [|c w IH]; simpl; auto. Qed.

(** A match at the current position is replaced, and the scan goes on
    after it. *)
Lemma replace_go_match (w rest : jsstring) (caps : captures) :
  w <> [] ->
  match_here ic r (w ++ rest) = Some (rest, caps) ->
  replace_go ic r f (w ++ rest) 0 = f w caps ++ replace_go ic r f rest 0.
Proof.
  intros Hw H. destruct w as [|c w]; [contradiction|].
  assert (E : matched_len ((c :: w) ++ rest) rest = S (length w)).
  { unfold matched_len. rewrite length_app. cbn [length]. lia. }
  change ((c :: w) ++ rest) with (c :: w ++ rest) in *.
  cbn [replace_go]. rewrite H, E.
  replace (firstn (S (length w)) (c :: w ++ rest)) with (c :: w).
  - f_equal. apply replace_go_skip.
  - simpl. f_equal. rewrite firstn_app, firstn_all, Nat.sub_diag. simpl.
    now rewrite app_nil_r.
Qed.

Lemma replace_go_miss (c : code_unit) (s : jsstring) :
  match_here ic r (c :: s) = None ->
  replace_go ic r f (c :: s) 0 = c :: replace_go ic r f s 0.
Proof. intros H. cbn [replace_go]. now rewrite H. Qed.

(** Where the pattern has no match, the text comes back unchanged. *)
Lemma replace_go_quiet (s : jsstring) : quiet ic r s -> replace_go ic r f s 0 = s.
Proof.
  induction s as [|c s IH]; simpl; intros [H Q].
  - now rewrite H.
  - rewrite H. f_equal. auto.
Qed.


End ReplaceFacts.

(** *** Replacement by the empty string *)

Section DeleteFacts.

Variable ic : bool.
Variable r : regex.




End DeleteFacts.

(** ** Texts a pattern cannot touch *)

Lemma String_replace_inert (q : code_unit -> bool) (R : RegExp)
    (f : jsstring -> captures -> jsstring) (s : jsstring) :
  needs (re_ignoreCase R) q (re_source R) = true ->
  Forall (fun c => q c = false) s ->
  String_replace R f s = s.
Proof.
  intros N F. unfold String_replace, replace_all.
  apply replace_go_quiet. now apply quiet_needs with (q := q).
Qed.

Lemma RegExp_exec_inert (q : code_unit -> bool) (R : RegExp) (s : jsstring) :
  re_global R = false ->
  needs (re_ignoreCase R) q (re_source R) = true ->
  Forall (fun c => q c = false) s ->
  forall li, RegExp_exec R li s = (None, li).
Proof.
  intros G N F li. unfold RegExp_exec. rewrite G. simpl.
  replace (search_from (re_ignoreCase R) (re_source R) s 0) with (@None match_result);
    [reflexivity|].
  symmetry. apply search_from_quiet. now apply quiet_needs with (q := q).
Qed.

Lemma all_space_not_space (s : jsstring) :
  all_space s -> Forall (fun c => not_space c = false) s.
Proof.
  unfold all_space, not_space. apply Forall_impl. intros c ->. reflexivity.
Qed.

Lemma drop_while_all (p : code_unit -> bool) (s : jsstring) :
  Forall (fun c => p c = true) s -> drop_while p s = [].
Proof. induction 1 as [|c s Hc F IH]; simpl; [|rewrite Hc]; auto. Qed.

Lemma trim_all_space (s : jsstring) : all_space s -> trim s = [].
Proof. intros F. unfold trim. now rewrite (drop_while_all _ F). Qed.

Ltac inert_pass q s F :=
  match goal with
  | |- context [String_replace ?R ?f s] =>
      rewrite (@String_replace_inert q R f s) by (exact F || reflexivity)
  end.

Lemma stripJsxArtifacts_space (s : jsstring) : all_space s -> stripJsxArtifacts s = s.
Proof.
  intros F. apply all_space_not_space in F. unfold stripJsxArtifacts.
  repeat inert_pass not_space s F. reflexivity.
Qed.

Lemma convertClassBindings_space (s : jsstring) : all_space s -> convertClassBindings s = s.
Proof.
  intros F. apply all_space_not_space in F. unfold convertClassBindings.
  repeat inert_pass not_space s F. reflexivity.
Qed.

Lemma convertCustomComponents_space (s : jsstring) :
  all_space s -> convertCustomComponents s = s.
Proof.
  intros F. apply all_space_not_space in F.
  unfold convertCustomComponents, replaceComponent, replaceSelfClosing.
  repeat inert_pass not_space s F. reflexivity.
Qed.

Lemma sanitizeMarkup_space (s : jsstring) : all_space s -> sanitizeMarkup s = s.
Proof.
  intros F. apply all_space_not_space in F. unfold sanitizeMarkup. simpl fold_left.
  repeat inert_pass not_space s F. reflexivity.
Qed.

(** ** The extractor *)

Lemma extractPrimarySection_space (s : jsstring) :
  all_space s -> extractPrimarySection s = mkExtractionResult s s.
Proof.
  intros F. pose proof (all_space_not_space F) as F'.
  unfold extractPrimarySection, extractPrimarySection_in, extractFallbackSection_in.
  rewrite (@RegExp_exec_inert not_space HERO_SECTION_REGEX s) by (exact F' || reflexivity).
  rewrite (@RegExp_exec_inert not_space MAIN_SECTION_REGEX s) by (exact F' || reflexivity).
  rewrite (trim_all_space F). simpl. f_equal.
  unfold normalizeSection. destruct s as [|c s]; [reflexivity|]. simpl negb. cbv iota.
  rewrite (stripJsxArtifacts_space F), (convertClassBindings_space F),
    (convertCustomComponents_space F), (sanitizeMarkup_space F).
  reflexivity.
Qed.

(** C5, as the code has it.  An input that is empty or made of white space
    only comes back unchanged in both fields: the empty string gives two
    empty strings, and a white-space input gives that white space, since
    the untrimmed response is the last fallback. *)
Theorem whitespace_input_returned_unchanged (s : jsstring) :
  all_space s ->
  sanitizedHtml (extractPrimarySection s) = s /\
  rawSection (extractPrimarySection s) = s.
Proof.
  intros F. rewrite (extractPrimarySection_space F). simpl. auto.
Qed.

Lemma whitespace_input_returned_unchanged_witness :
  all_space [32; 10; 9]%N /\
  sanitizedHtml (extractPrimarySection [32; 10; 9]%N) = [32; 10; 9]%N /\
  rawSection (extractPrimarySection [32; 10; 9]%N) = [32; 10; 9]%N.
Proof.
  assert (F : all_space [32; 10; 9]%N) by (repeat constructor).
  split; [exact F|]. apply (whitespace_input_returned_unchanged F).
Defined.

(** C5 as stated fails: one space is white space only, and the result is
    not the pair of empty strings. *)
Lemma whitespace_input_not_emptied :
  all_space (js " ") /\
  extractPrimarySection (js " ") <> mkExtractionResult [] [].
Proof.
  split; [repeat constructor|]. intros H. vm_compute in H. discriminate.
Qed.

Lemma search_from_nonempty (ic : bool) (r : regex) (s : jsstring) : forall pos m,
  search_from ic r s pos = Some m -> min_len r <= length (m_text m).
Proof.
  induction s as [|c s IH]; intros pos m H; simpl in H.
  - destruct (match_here ic r []) as [[rest caps]|] eqn:E; [|discriminate].
    inversion H; subst; simpl. apply match_here_shorter in E. simpl in *. lia.
  - destruct (match_here ic r (c :: s)) as [[rest caps]|] eqn:E; [|eauto].
    inversion H; subst; cbn [m_text].
    pose proof (match_here_shorter _ _ _ E) as Hl.
    rewrite length_firstn. unfold matched_len. lia.
Qed.

(** Without the [g] flag [exec] searches from the start and leaves
    [lastIndex] alone. *)
Lemma RegExp_exec_not_global (R : RegExp) (li : nat) (s : jsstring) :
  re_global R = false ->
  RegExp_exec R li s = (search_from (re_ignoreCase R) (re_source R) s 0, li).
Proof.
  intros G. unfold RegExp_exec. rewrite G. cbn [Nat.ltb Nat.leb skipn].
  destruct (search_from _ _ s 0); reflexivity.
Qed.

Lemma main_match_truthy (s m : jsstring) : main_match s = Some m -> truthy m = true.
Proof.
  unfold main_match. rewrite RegExp_exec_not_global by reflexivity. cbn [fst].
  destruct (search_from _ _ s 0) as [mr|] eqn:E; [|discriminate].
  simpl. intros H. inversion H; subst.
  apply search_from_nonempty in E. change (min_len (re_source MAIN_SECTION_REGEX)) with 12 in E.
  destruct (m_text mr); [simpl in E; lia|reflexivity].
Qed.

(** The two module-level patterns have no [g] flag: a call reads and
    writes no [lastIndex]. *)
Lemma extractPrimarySection_in_state (st : module_state) (s : jsstring) :
  extractPrimarySection_in st s = (extractPrimarySection s, st).
Proof.
  destruct st as [h m].
  unfold extractPrimarySection, extractPrimarySection_in, extractFallbackSection_in.
  rewrite !(@RegExp_exec_not_global HERO_SECTION_REGEX) by reflexivity.
  destruct (search_from _ (re_source HERO_SECTION_REGEX) s 0) as [hm|]; [reflexivity|].
  cbn [main_lastIndex hero_lastIndex initial_state].
  rewrite !(@RegExp_exec_not_global MAIN_SECTION_REGEX) by reflexivity.
  destruct (search_from _ (re_source MAIN_SECTION_REGEX) s 0) as [mm|].
  - destruct (truthy (m_text mm)); reflexivity.
  - reflexivity.
Qed.

Lemma rawSection_selected (s : jsstring) :
  rawSection (extractPrimarySection s) = selected s.
Proof.
  unfold selected. destruct (main_match s) as [m|] eqn:M.
  - pose proof (main_match_truthy _ M) as T. revert M T.
    unfold extractPrimarySection, extractPrimarySection_in, extractFallbackSection_in,
      hero_match, main_match.
    cbn [hero_lastIndex main_lastIndex initial_state].
    destruct (RegExp_exec HERO_SECTION_REGEX 0 s) as [[hm|] li]; [reflexivity|].
    destruct (RegExp_exec MAIN_SECTION_REGEX 0 s) as [[mm|] li']; [|discriminate].
    cbn. intros H T. inversion H; subst. rewrite T. reflexivity.
  - revert M.
    unfold extractPrimarySection, extractPrimarySection_in, extractFallbackSection_in,
      hero_match, main_match.
    cbn [hero_lastIndex main_lastIndex initial_state].
    destruct (RegExp_exec HERO_SECTION_REGEX 0 s) as [[hm|] li]; [reflexivity|].
    destruct (RegExp_exec MAIN_SECTION_REGEX 0 s) as [[mm|] li']; [discriminate|].
    cbn. intros _. destruct (truthy (trim s)); reflexivity.
Qed.

(** C9.  A call of [extractPrimarySection] returns the same result from
    every state earlier calls can have left the module in, and leaves that
    state as it found it: equal inputs give equal results. *)
Theorem extraction_is_pure (st st' : module_state) (s : jsstring) :
  fst (extractPrimarySection_in st s) = fst (extractPrimarySection_in st' s) /\
  snd (extractPrimarySection_in st s) = st /\
  sanitizedHtml (fst (extractPrimarySection_in st s)) =
    normalizeSection (rawSection (fst (extractPrimarySection_in st s))).
Proof.
  rewrite !extractPrimarySection_in_state. simpl. repeat split.
  unfold extractPrimarySection, extractPrimarySection_in. cbn [hero_lastIndex initial_state].
  destruct (RegExp_exec HERO_SECTION_REGEX 0 s) as [[hm|] li].
  - reflexivity.
  - destruct (extractFallbackSection_in _ s) as [[fb|] st2]; reflexivity.
Qed.

(** C8.  [<Button variant=\x22primary\x22>Go</Button>] comes out as
    [<button class=\x22arena-btn\x22>Go</button>]. *)
Theorem button_rewrite :
  sanitizedHtml (extractPrimarySection (js "<Button variant=" ++ quoted "primary" ++ js ">Go</Button>"))
  = js "<button class=" ++ quoted "arena-btn" ++ js ">Go</button>".
Proof. vm_compute. reflexivity. Qed.

(** C3 fails on the code.  The opening pattern of the Card rule matches a
    [<CardHeader>] tag, the Card rule runs first, and the tag gets the class
    of Card; the CardHeader rule, run alone, gives the header class. *)
Theorem card_rule_takes_card_header :
  test (openingTagRegex "Card") (js "<CardHeader>") = true /\
  convertCustomComponents (js "<CardHeader>Title</CardHeader>")
  = js "<div class=" ++ quoted "arena-card" ++ js ">Title</div>" /\
  replaceComponent (js "<CardHeader>Title</CardHeader>") "CardHeader" "div" "arena-card__header" []
  = js "<div class=" ++ quoted "arena-card__header" ++ js ">Title</div>".
Proof. repeat split; vm_compute; reflexivity. Qed.

(** ** The attribute object *)

Lemma obj_get_put (k k' v : jsstring) (o : jsobject) :
  obj_get k' (obj_put k v o) = if jsstring_eqb k k' then Some v else obj_get k' o.
Proof.
  induction o as [|[k0 v0] o IH]; simpl.
  - destruct (jsstring_eqb k k'); reflexivity.
  - destruct (jsstring_eqb k0 k) eqn:E; simpl.
    + apply jsstring_eqb_eq in E. subst k0. destruct (jsstring_eqb k k'); reflexivity.
    + destruct (jsstring_eqb k0 k') eqn:E'; [|exact IH].
      apply jsstring_eqb_eq in E'. subst k0. now rewrite jsstring_eqb_neq by
        (intros ->; rewrite jsstring_eqb_refl in E; discriminate).
Qed.

Lemma obj_get_set (k k' v : jsstring) (o : jsobject) :
  k' <> js "__proto__" ->
  obj_get k' (obj_set k v o) = if jsstring_eqb k k' then Some v else obj_get k' o.
Proof.
  intros P. unfold obj_set. destruct (jsstring_eqb k (js "__proto__")) eqn:E.
  - apply jsstring_eqb_eq in E. subst k. now rewrite jsstring_eqb_neq by congruence.
  - apply obj_get_put.
Qed.

Lemma last_raw_snoc (key : jsstring) (l : list (jsstring * jsstring)) (kv : jsstring * jsstring) :
  last_raw key (l ++ [kv]) = if jsstring_eqb (fst kv) key then Some (snd kv) else last_raw key l.
Proof. unfold last_raw. now rewrite fold_left_app. Qed.

(** The attribute pattern takes at least four characters, so the scan of
    [parseAttributes] moves on at every match. *)
Lemma attribute_regex_consumes (s rest : jsstring) (caps : captures) :
  match_here false (re_source attribute_regex) s = Some (rest, caps) ->
  length rest + 4 <= length s.
Proof. apply match_here_shorter. Qed.

(** C7, as the code has it.  The scan assigns [attrs[key]] at every
    match, so an attribute name that occurs several times ends with the
    value of its last occurrence. *)
Theorem last_attribute_occurrence_wins (source key : jsstring) :
  key <> js "__proto__" ->
  obj_get key (parseAttributes source) =
  option_map unwrapAttributeValue (last_raw key (attribute_matches source)).
Proof.
  intros P. unfold parseAttributes.
  induction (attribute_matches source) as [|kv l IH] using rev_ind; [reflexivity|].
  rewrite fold_left_app, last_raw_snoc. cbn [fold_left].
  rewrite obj_get_set by exact P.
  destruct (jsstring_eqb (fst kv) key); [reflexivity|exact IH].
Qed.

Lemma last_attribute_occurrence_wins_witness :
  obj_get (js "a") (parseAttributes (js "a=" ++ quoted "1" ++ js " a=" ++ quoted "2")) =
  Some (js "2").
Proof.
  rewrite (@last_attribute_occurrence_wins
             (js "a=" ++ quoted "1" ++ js " a=" ++ quoted "2") (js "a")).
  - vm_compute. reflexivity.
  - intros H. vm_compute in H. discriminate.
Defined.

(** C7 as stated fails: in [a=\x221\x22 a=\x222\x22] the first occurrence of [a]
    has the value [1], and the map holds [2]. *)
Lemma first_attribute_occurrence_loses :
  let source := js "a=" ++ quoted "1" ++ js " a=" ++ quoted "2" in
  attribute_matches source = [(js "a", quoted "1"); (js "a", quoted "2")] /\
  obj_get (js "a") (parseAttributes source) <> Some (js "1").
Proof.
  split; [vm_compute; reflexivity|]. intros H. vm_compute in H. discriminate.
Qed.

(** ** The sanitizer *)

Lemma test_quiet (R : RegExp) (s : jsstring) :
  test R s = false <-> quiet (re_ignoreCase R) (re_source R) s.
Proof.
  unfold test. rewrite <- (search_from_quiet _ _ s 0).
  destruct (search_from _ _ s 0); intuition discriminate.
Qed.








Lemma String_replace_untouched (R : RegExp) (f : jsstring -> captures -> jsstring)
    (s : jsstring) :
  test R s = false -> String_replace R f s = s.
Proof.
  intros H. unfold String_replace, replace_all. apply replace_go_quiet. now apply test_quiet.
Qed.






(** ** Matching literal text and repetitions *)

Section Shapes.

Variable ic : bool.

Lemma run_lit_of (l : list ascii) : forall s caps k,
  run ic (lit_of l) s caps k =
  match starts_with_ci ic (map cu l) s with
  | Some s' => k s' caps
  | None => None
  end.
Proof.
  induction l as [|a l IH]; intros s caps k; [reflexivity|].
  destruct l as [|b l].
  - simpl. destruct s as [|c s]; [reflexivity|].
    destruct (canon ic c =? canon ic (cu a))%N; reflexivity.
  - change (lit_of (a :: b :: l)) with (Seq (Atom (AChar (cu a))) (lit_of (b :: l))).
    cbn [run]. destruct s as [|c s]; [reflexivity|].
    cbn [map starts_with_ci atom_match].
    destruct (canon ic c =? canon ic (cu a))%N; [|reflexivity].
    rewrite IH. reflexivity.
Qed.

Lemma run_lit (w : string) (s : jsstring) (caps : captures) (k : cont) :
  run ic (lit w) s caps k =
  match starts_with_ci ic (js w) s with
  | Some s' => k s' caps
  | None => None
  end.
Proof. apply run_lit_of. Qed.

Lemma starts_with_ci_same (w o rest : jsstring) :
  map (canon ic) o = map (canon ic) w -> starts_with_ci ic w (o ++ rest) = Some rest.
Proof.
  revert o. induction w as [|x w IH]; intros [|c o] H; try discriminate; [reflexivity|].
  simpl in *. inversion H as [[Hc Ho]]. rewrite Hc, N.eqb_refl. auto.
Qed.





Lemma star_lazy_now (a : atom) (k : cont) (caps : captures) (s : jsstring) res :
  k s caps = Some res -> star_lazy ic a s caps k = Some res.
Proof. intros H. destruct s; simpl; now rewrite H. Qed.

(** The greedy star takes a whole run when what follows can go on from
    its end. *)
Lemma star_greedy_take (a : atom) (k : cont) (caps : captures) (u rest : jsstring) res :
  Forall (fun c => atom_match ic a c = true) u ->
  stops ic a rest ->
  k rest caps = Some res ->
  star_greedy ic a (u ++ rest) caps k = Some res.
Proof.
  intros F S K. induction F as [|c u Hc F IH]; simpl.
  - destruct rest as [|c rest]; simpl in *; [exact K|]. now rewrite S.
  - now rewrite Hc, IH.
Qed.

End Shapes.

(** ** What the sanitizer receives *)




Lemma same_ci_canon (a b : jsstring) : same_ci a b -> map (canon true) a = map (canon true) b.
Proof. exact (fun H => H). Qed.




(** ** Letters, white space and runs *)

Lemma is_space_cases (c : code_unit) :
  is_space c = true ->
  ((9 <= c <= 13) \/ c = 32 \/ c = 160 \/ c = 5760 \/ (8192 <= c <= 8202) \/ c = 8232
   \/ c = 8233 \/ c = 8239 \/ c = 8287 \/ c = 12288 \/ c = 65279)%N.
Proof.
  unfold is_space.
  rewrite !orb_true_iff, !andb_true_iff, !N.eqb_eq, !N.leb_le. tauto.
Qed.









(** A character that is not an ASCII letter matches only itself. *)
Lemma canon_not_letter (c x : code_unit) :
  is_letter x = false -> canon true c = canon true x -> c = x.
Proof.
  intros L E. apply canon_cases in E. unfold to_upper, to_lower in E.
  unfold is_letter in L. apply orb_false_iff in L. destruct L as [L1 L2].
  rewrite L1, L2 in E. tauto.
Qed.





(** ** The hero section *)

Section Completeness.

Variable ic : bool.

Lemma star_greedy_some (a : atom) (k : cont) (caps : captures) (u rest : jsstring) :
  Forall (fun c => atom_match ic a c = true) u ->
  (exists res, k rest caps = Some res) ->
  exists res, star_greedy ic a (u ++ rest) caps k = Some res.
Proof.
  intros F K. induction F as [|c u Hc F IH]; simpl.
  - destruct K as [res K]. destruct rest as [|c rest]; simpl; [eauto|].
    destruct (atom_match ic a c); [|eauto].
    destruct (star_greedy ic a rest caps k); eauto.
  - rewrite Hc. destruct IH as [res ->]. eauto.
Qed.

Lemma star_lazy_some (a : atom) (k : cont) (caps : captures) (u rest : jsstring) :
  Forall (fun c => atom_match ic a c = true) u ->
  (exists res, k rest caps = Some res) ->
  exists res, star_lazy ic a (u ++ rest) caps k = Some res.
Proof.
  intros F K. induction F as [|c u Hc F IH]; simpl.
  - destruct K as [res K]. exists res. now apply star_lazy_now.
  - destruct (k (c :: u ++ rest) caps); [eauto|]. now rewrite Hc.
Qed.

Lemma search_from_some (r : regex) (a b : jsstring) : forall pos,
  (exists res, match_here ic r b = Some res) ->
  exists m, search_from ic r (a ++ b) pos = Some m.
Proof.
  induction a as [|c a IH]; intros pos [[rest caps] K]; simpl.
  - destruct b; simpl; rewrite K; eauto.
  - destruct (match_here ic r (c :: a ++ b)) as [[rest' caps']|]; eauto.
Qed.

End Completeness.

Lemma class_any (c : code_unit) : atom_match true any c = true.
Proof. cbn. now destruct (is_space c). Qed.

Lemma class_not_gt (A : jsstring) :
  lacks gt_sign A -> Forall (fun c => atom_match true (none_of [ch ">"]) c = true) A.
Proof.
  apply Forall_impl. intros c H.
  assert (E : (to_upper c =? 62)%N = false).
  { apply N.eqb_neq. intros E. change (canon true c = canon true gt_sign) in E.
    apply canon_not_letter in E; [|reflexivity]. subst c. discriminate. }
  cbn. now rewrite E.
Qed.

(** A section element written with a quoted [id] of [hero], in any letter
    case and after any attribute text, is seen by the hero pattern. *)
Lemma hero_pattern_hit (sec A idw hw B close Y : jsstring) (q : code_unit) :
  same_ci sec (js "<section") -> lacks gt_sign A -> same_ci idw (js "id=") ->
  q = dqc \/ q = cu "'" -> same_ci hw (js "hero") -> same_ci close (js "</section>") ->
  exists res,
    match_here true (re_source HERO_SECTION_REGEX)
      (sec ++ A ++ idw ++ [q] ++ hw ++ [q] ++ B ++ close ++ Y)
    = Some res.
Proof.
  intros Hsec HA Hid Hq Hhw Hcl. unfold match_here. cbn [re_source HERO_SECTION_REGEX run].
  rewrite run_lit, (starts_with_ci_same true _ _ _ (same_ci_canon Hsec)).
  apply star_greedy_some; [now apply class_not_gt|].
  rewrite run_lit, (starts_with_ci_same true _ _ _ (same_ci_canon Hid)).
  cbn [app run].
  replace (atom_match true (one_of [CChar dqc; ch "'"]) q) with true
    by (destruct Hq; subst q; reflexivity).
  rewrite run_lit, (starts_with_ci_same true _ _ _ (same_ci_canon Hhw)).
  cbn [cap_get Nat.eqb length].
  replace (S (length (hw ++ q :: B ++ close ++ Y)) - length (hw ++ q :: B ++ close ++ Y))
    with 1 by lia.
  cbn [firstn starts_with_ci]. rewrite N.eqb_refl.
  apply star_lazy_some.
  - apply Forall_forall. intros c _. apply class_any.
  - rewrite run_lit, (starts_with_ci_same true _ _ _ (same_ci_canon Hcl)). eauto.
Qed.

Lemma hero_match_some (X sec A idw hw B close Y : jsstring) (q : code_unit) :
  same_ci sec (js "<section") -> lacks gt_sign A -> same_ci idw (js "id=") ->
  q = dqc \/ q = cu "'" -> same_ci hw (js "hero") -> same_ci close (js "</section>") ->
  exists h,
    hero_match (X ++ sec ++ A ++ idw ++ [q] ++ hw ++ [q] ++ B ++ close ++ Y) = Some h.
Proof.
  intros Hsec HA Hid Hq Hhw Hcl. unfold hero_match.
  rewrite RegExp_exec_not_global by reflexivity.
  destruct (@search_from_some (re_ignoreCase HERO_SECTION_REGEX)
              (re_source HERO_SECTION_REGEX) X _ 0
              (@hero_pattern_hit sec A idw hw B close Y q Hsec HA Hid Hq Hhw Hcl)) as [m ->].
  cbn. eauto.
Qed.



(** C10.  The hero selector takes more than a section whose [id] is
    [hero]: any text from [<section], past characters other than [>], to
    [id=], a quoted [hero] and the first [</section>], in any letter case,
    is a match, and the first match is the candidate.  So a section with
    [data-id=\x22hero\x22], and one with [id=\x22HERO\x22], are chosen, also
    when a main element comes first. *)
Theorem hero_selector_is_loose :
  (forall X sec A idw hw B close Y q,
      same_ci sec (js "<section") -> lacks gt_sign A -> same_ci idw (js "id=") ->
      q = dqc \/ q = cu "'" -> same_ci hw (js "hero") -> same_ci close (js "</section>") ->
      let s := X ++ sec ++ A ++ idw ++ [q] ++ hw ++ [q] ++ B ++ close ++ Y in
      exists h, hero_match s = Some h /\ rawSection (extractPrimarySection s) = h) /\
  rawSection (extractPrimarySection
    (js "<main>M</main><section data-id=" ++ quoted "hero" ++ js ">X</section>"))
  = js "<section data-id=" ++ quoted "hero" ++ js ">X</section>" /\
  rawSection (extractPrimarySection
    (js "<main>M</main><section id=" ++ quoted "HERO" ++ js ">X</section>"))
  = js "<section id=" ++ quoted "HERO" ++ js ">X</section>".
Proof.
  split; [|split; vm_compute; reflexivity].
  intros X sec A idw hw B close Y q Hsec HA Hid Hq Hhw Hcl s.
  destruct (@hero_match_some X sec A idw hw B close Y q Hsec HA Hid Hq Hhw Hcl) as [h H].
  exists h. split; [exact H|]. rewrite rawSection_selected. unfold selected.
  fold s in H. now rewrite H.
Qed.

Lemma hero_selector_is_loose_witness :
  exists h,
    hero_match (js "<main>M</main><Section class='a' data-id='HeRo'>X</SECTION>") = Some h /\
    rawSection (extractPrimarySection
      (js "<main>M</main><Section class='a' data-id='HeRo'>X</SECTION>")) = h.
Proof.
  apply (proj1 hero_selector_is_loose (js "<main>M</main>") (js "<Section")
           (js " class='a' data-") (js "id=") (js "HeRo") (js ">X") (js "</SECTION>") []
           (cu "'")); try reflexivity.
  - apply Forall_forall. intros c H.
    repeat (destruct H as [<-|H]; [reflexivity|]). destruct H.
  - now right.
Defined.

(** ** Script elements in a text *)










(** ** Event-handler attributes in a text *)

(** Lists written with [++] and [::], put in right-nested form. *)
Ltac list_norm := repeat (progress (cbn [app]; rewrite <- ?app_assoc)).











Lemma form_open_not_space (f : value_form) : is_space (form_open f) = false.
Proof. destruct f; reflexivity. Qed.



























(** ** Replacing one character

    A global pattern of one character position rewrites a text character
    by character. *)

Lemma replace_atom (a : atom) (w s : jsstring) :
  String_replace (g (Atom a)) (const_repl w) s =
  flat_map (fun c => if atom_match false a c then w else [c]) s.
Proof.
  unfold String_replace, replace_all. cbn [re_ignoreCase re_source g].
  induction s as [|c s IH]; [reflexivity|].
  cbn [replace_go match_here run flat_map].
  destruct (atom_match false a c).
  - unfold matched_len. cbn [length]. replace (S (length s) - length s) with 1 by lia.
    cbn [firstn const_repl]. now rewrite IH.
  - now rewrite IH.
Qed.

(** ** escapeAttribute *)

Lemma escapeAttribute_flat_map (s : jsstring) :
  escapeAttribute s = flat_map (fun c => escapeAttribute [c]) s.
Proof.
  assert (A : forall a b, escapeAttribute (a ++ b) = escapeAttribute a ++ escapeAttribute b).
  { intros a b. unfold escapeAttribute, chr. rewrite !replace_atom, !flat_map_app. reflexivity. }
  induction s as [|c s IH]; [reflexivity|].
  change (c :: s) with ([c] ++ s). rewrite A, IH. reflexivity.
Qed.

Lemma escapeAttribute_one (c : code_unit) :
  escapeAttribute [c] =
  if (c =? amp_sign)%N then js "&amp;"
  else if (c =? dqc)%N then js "&quot;"
  else if (c =? lt_sign)%N then js "&lt;"
  else if (c =? gt_sign)%N then js "&gt;"
  else [c].
Proof.
  destruct (c =? amp_sign)%N eqn:E1; [apply N.eqb_eq in E1; subst; reflexivity|].
  destruct (c =? dqc)%N eqn:E2; [apply N.eqb_eq in E2; subst; reflexivity|].
  destruct (c =? lt_sign)%N eqn:E3; [apply N.eqb_eq in E3; subst; reflexivity|].
  destruct (c =? gt_sign)%N eqn:E4; [apply N.eqb_eq in E4; subst; reflexivity|].
  unfold escapeAttribute, chr. rewrite !replace_atom.
  cbn [flat_map atom_match canon app].
  change (cu "&") with amp_sign. rewrite E1. cbn [flat_map app].
  rewrite E2. cbn [flat_map app].
  change (cu "<") with lt_sign. rewrite E3. cbn [flat_map app].
  change (cu ">") with gt_sign. rewrite E4. reflexivity.
Qed.

(** X1.  [escapeAttribute] works character by character: the escaped form
    of a text is the escaped forms of its characters, one after the
    other; [&], the double quote, [<] and [>] become [&amp;], [&quot;],
    [&lt;] and [&gt;], and every other character stays as it is. *)
Theorem escapeAttribute_by_character (a b : jsstring) (c : code_unit) :
  escapeAttribute (a ++ b) = escapeAttribute a ++ escapeAttribute b /\
  escapeAttribute [c] =
    (if (c =? amp_sign)%N then js "&amp;"
     else if (c =? dqc)%N then js "&quot;"
     else if (c =? lt_sign)%N then js "&lt;"
     else if (c =? gt_sign)%N then js "&gt;"
     else [c]).
Proof.
  split; [|apply escapeAttribute_one].
  rewrite !escapeAttribute_flat_map. apply flat_map_app.
Qed.

Lemma escapeAttribute_cons (c : code_unit) (s : jsstring) :
  escapeAttribute (c :: s) = escapeAttribute [c] ++ escapeAttribute s.
Proof. rewrite (escapeAttribute_flat_map (c :: s)), (escapeAttribute_flat_map s). cbn [flat_map]. reflexivity. Qed.

Lemma escapeAttribute_chars (s : jsstring) :
  Forall (fun c => (c =? dqc)%N = false /\ (c =? lt_sign)%N = false /\ (c =? gt_sign)%N = false)
    (escapeAttribute s).
Proof.
  induction s as [|c s IH]; [constructor|].
  rewrite escapeAttribute_cons. apply Forall_app. split; [|exact IH].
  rewrite escapeAttribute_one.
  destruct (c =? amp_sign)%N; [repeat constructor|].
  destruct (c =? dqc)%N eqn:E2; [repeat constructor|].
  destruct (c =? lt_sign)%N eqn:E3; [repeat constructor|].
  destruct (c =? gt_sign)%N eqn:E4; [repeat constructor|].
  repeat constructor; assumption.
Qed.

(** X2.  Whatever the value, its escaped form contains no double quote, no
    [<] and no [>]. *)
Theorem escapeAttribute_output_safe (s : jsstring) :
  lacks dqc (escapeAttribute s) /\ lacks lt_sign (escapeAttribute s) /\
  lacks gt_sign (escapeAttribute s).
Proof.
  pose proof (escapeAttribute_chars s) as H. unfold lacks.
  repeat split; eapply Forall_impl; try exact H; cbv beta; tauto.
Qed.

Lemma escapeAttribute_nonempty (c : code_unit) (s : jsstring) : escapeAttribute (c :: s) <> [].
Proof.
  rewrite escapeAttribute_cons, escapeAttribute_one.
  destruct (c =? amp_sign)%N; [discriminate|].
  destruct (c =? dqc)%N; [discriminate|].
  destruct (c =? lt_sign)%N; [discriminate|].
  destruct (c =? gt_sign)%N; discriminate.
Qed.

Ltac eqb_cases H :=
  repeat match type of H with
  | context [if (?x =? ?y)%N then _ else _] =>
      let E := fresh "E" in
      destruct (x =? y)%N eqn:E; [apply N.eqb_eq in E|]
  end.

(** X3.  [escapeAttribute] loses nothing: two values with the same escaped
    form are the same value. *)
Theorem escapeAttribute_injective (a b : jsstring) :
  escapeAttribute a = escapeAttribute b -> a = b.
Proof.
  revert b. induction a as [|c a IH]; intros [|d b] H.
  - reflexivity.
  - symmetry in H. now apply escapeAttribute_nonempty in H.
  - now apply escapeAttribute_nonempty in H.
  - rewrite (escapeAttribute_cons c), (escapeAttribute_cons d), !escapeAttribute_one in H.
    eqb_cases H; subst; cbn in H; try discriminate;
      try (injection H as H; f_equal; auto; fail);
      try (injection H as Hd H; subst; discriminate).
Qed.

Lemma escapeAttribute_injective_witness :
  escapeAttribute (js "a<b&c") = escapeAttribute [97; 60; 98; 38; 99]%N /\
  js "a<b&c" = [97; 60; 98; 38; 99]%N.
Proof. split; [reflexivity|apply escapeAttribute_injective; reflexivity]. Defined.

Lemma escapeAttribute_length (s : jsstring) : length s <= length (escapeAttribute s).
Proof.
  induction s as [|c s IH]; [simpl; lia|].
  rewrite escapeAttribute_cons, length_app, escapeAttribute_one.
  destruct (c =? amp_sign)%N; [simpl; lia|].
  destruct (c =? dqc)%N; [simpl; lia|].
  destruct (c =? lt_sign)%N; [simpl; lia|].
  destruct (c =? gt_sign)%N; simpl; lia.
Qed.

Lemma escapeAttribute_plain (s : jsstring) :
  Forall (fun c => markup_special c = false) s -> escapeAttribute s = s.
Proof.
  induction 1 as [|c s Hc F IH]; [reflexivity|].
  rewrite escapeAttribute_cons, escapeAttribute_one, IH.
  unfold markup_special in Hc. rewrite !orb_false_iff in Hc.
  destruct Hc as [[[-> ->] ->] ->]. reflexivity.
Qed.

Lemma escapeAttribute_fixed_plain (s : jsstring) :
  escapeAttribute s = s -> Forall (fun c => markup_special c = false) s.
Proof.
  induction s as [|c s IH]; intros H; [constructor|].
  rewrite escapeAttribute_cons, escapeAttribute_one in H.
  pose proof (escapeAttribute_length s) as L.
  apply (f_equal (@length _)) in H as Hl. rewrite length_app in Hl.
  destruct (c =? amp_sign)%N eqn:E1; [simpl in Hl; lia|].
  destruct (c =? dqc)%N eqn:E2; [simpl in Hl; lia|].
  destruct (c =? lt_sign)%N eqn:E3; [simpl in Hl; lia|].
  destruct (c =? gt_sign)%N eqn:E4; [simpl in Hl; lia|].
  injection H as H. constructor; [|auto].
  unfold markup_special. now rewrite E1, E2, E3, E4.
Qed.

Lemma escapeAttribute_amp (s : jsstring) :
  Forall (fun c => (c =? amp_sign)%N = false) (escapeAttribute s) ->
  Forall (fun c => markup_special c = false) s.
Proof.
  induction s as [|c s IH]; intros H; [constructor|].
  rewrite escapeAttribute_cons, escapeAttribute_one in H.
  apply Forall_app in H. destruct H as [H1 H2].
  destruct (c =? amp_sign)%N eqn:E1; [inversion H1; discriminate|].
  destruct (c =? dqc)%N eqn:E2; [inversion H1; discriminate|].
  destruct (c =? lt_sign)%N eqn:E3; [inversion H1; discriminate|].
  destruct (c =? gt_sign)%N eqn:E4; [inversion H1; discriminate|].
  constructor; [|auto].
  unfold markup_special. now rewrite E1, E2, E3, E4.
Qed.

(** X4.  [escapeAttribute] leaves a value unchanged exactly when the value
    has none of [&], the double quote, [<] and [>]; and only on those
    values does escaping twice give the same as escaping once: an
    already escaped value is escaped again. *)
Theorem escapeAttribute_fixed (s : jsstring) :
  (escapeAttribute s = s <-> Forall (fun c => markup_special c = false) s) /\
  (escapeAttribute (escapeAttribute s) = escapeAttribute s <->
   Forall (fun c => markup_special c = false) s).
Proof.
  split; split.
  - apply escapeAttribute_fixed_plain.
  - apply escapeAttribute_plain.
  - intros H. apply escapeAttribute_fixed_plain in H.
    apply escapeAttribute_amp. eapply Forall_impl; [|exact H].
    intros c Hc. unfold markup_special in Hc. rewrite !orb_false_iff in Hc. tauto.
  - intros H. now rewrite !(escapeAttribute_plain H).
Qed.

(** ** unwrapAttributeValue *)

Lemma trim_delimited (o c : code_unit) (v : jsstring) :
  is_space o = false -> is_space c = false -> trim (o :: v ++ [c]) = o :: v ++ [c].
Proof.
  intros Ho Hc. unfold trim. cbn [drop_while]. rewrite Ho.
  change (o :: v ++ [c]) with ((o :: v) ++ [c]). rewrite rev_app_distr.
  cbn [rev app drop_while]. rewrite Hc.
  change (c :: rev v ++ [o]) with ([c] ++ rev (o :: v)). 
  rewrite rev_app_distr, rev_involutive. reflexivity.
Qed.

Lemma ends_with_last (x c : code_unit) (s : jsstring) :
  ends_with x (s ++ [c]) = (c =? x)%N.
Proof. unfold ends_with. rewrite rev_app_distr. reflexivity. Qed.

Lemma unwrap_delimited (v : jsstring) :
  unwrapAttributeValue (dq ++ v ++ dq) = v /\
  unwrapAttributeValue (js "'" ++ v ++ js "'") = v /\
  unwrapAttributeValue (js "{" ++ v ++ js "}") = trim v.
Proof.
  unfold unwrapAttributeValue, dq. cbn [js list_ascii_of_string map app].
  rewrite !trim_delimited by reflexivity.
  repeat split.
  - change (dqc :: v ++ [dqc]) with ((dqc :: v) ++ [dqc]). rewrite !ends_with_last.
    cbn. apply removelast_last.
  - change (cu "'" :: v ++ [cu "'"]) with ((cu "'" :: v) ++ [cu "'"]). rewrite !ends_with_last.
    cbn. apply removelast_last.
  - change (cu "{" :: v ++ [cu "}"]) with ((cu "{" :: v) ++ [cu "}"]). rewrite !ends_with_last.
    cbn. rewrite removelast_last. reflexivity.
Qed.

(** X5.  A value between double quotes or between single quotes unwraps
    to what is between them, untouched; a value between braces unwraps
    to what is between them, trimmed. *)
Theorem unwrapAttributeValue_delimited (v : jsstring) :
  unwrapAttributeValue (dq ++ v ++ dq) = v /\
  unwrapAttributeValue (js "'" ++ v ++ js "'") = v /\
  unwrapAttributeValue (js "{" ++ v ++ js "}") = trim v.
Proof. apply unwrap_delimited. Qed.

(** ** Splitting at runs of separators

    [split] with a pattern [a+], for a character class [a]. *)

Section SplitFacts.

Variable a : atom.

Lemma star_greedy_all (s : jsstring) (caps : captures) :
  star_greedy false a s caps (fun s' caps' => Some (s', caps')) = Some (drop_while (atom_match false a) s, caps).
Proof.
  induction s as [|c s IH]; [reflexivity|].
  cbn [star_greedy drop_while]. destruct (atom_match false a c); [now rewrite IH|reflexivity].
Qed.

Lemma match_here_plus (s : jsstring) :
  match_here false (Plus true a) s =
  match s with
  | c :: s' => if atom_match false a c then Some (drop_while (atom_match false a) s', []) else None
  | [] => None
  end.
Proof.
  unfold match_here, Plus. cbn [run]. destruct s as [|c s]; [reflexivity|].
  destruct (atom_match false a c); [apply star_greedy_all|reflexivity].
Qed.

Lemma drop_while_length (s : jsstring) : length (drop_while (atom_match false a) s) <= length s.
Proof. induction s as [|c s IH]; simpl; [lia|]. destruct (atom_match false a c); simpl; lia. Qed.

Lemma split_go_pieces (Q : code_unit -> Prop) (s : jsstring) : forall cur n,
  Forall Q s -> Forall (fun c => Q c /\ atom_match false a c = false) cur ->
  Forall (Forall (fun c => Q c /\ atom_match false a c = false)) (split_go false (Plus true a) s cur n).
Proof.
  induction s as [|c s IH]; intros cur n Fs Fc.
  - destruct n; cbn [split_go]; repeat constructor; now apply Forall_rev.
  - inversion Fs; subst. destruct n as [|n]; cbn [split_go]; [|auto].
    rewrite match_here_plus. destruct (atom_match false a c) eqn:E.
    + pose proof (drop_while_length s). unfold matched_len. cbn [length].
      destruct (S (length s) - length (drop_while (atom_match false a) s)) eqn:El; [lia|].
      constructor; [now apply Forall_rev|]. apply IH; auto.
    + apply IH; auto.
Qed.

Lemma split_go_concat (s : jsstring) : forall cur n,
  n <= length s - length (drop_while (atom_match false a) s) \/ n = 0 ->
  concat (split_go false (Plus true a) s cur n) = rev cur ++ filter (fun c => negb (atom_match false a c)) s.
Proof.
  induction s as [|c s IH]; intros cur n Hn.
  - destruct n; cbn [split_go concat filter]; now rewrite !app_nil_r.
  - destruct n as [|n]; cbn [split_go].
    + rewrite match_here_plus. destruct (atom_match false a c) eqn:E.
      * pose proof (drop_while_length s). unfold matched_len. cbn [length].
        destruct (S (length s) - length (drop_while (atom_match false a) s)) eqn:El; [lia|].
        cbn [concat filter]. rewrite E. cbn [negb]. rewrite IH; [reflexivity|]. left. lia.
      * rewrite IH by (right; reflexivity). cbn [rev filter]. rewrite E. cbn [negb].
        now rewrite <- app_assoc.
    + destruct Hn as [Hn|Hn]; [|discriminate].
      cbn [drop_while] in Hn. destruct (atom_match false a c) eqn:E; cbn [length] in Hn.
      * cbn [filter]. rewrite E. cbn [negb]. apply IH. left. lia.
      * lia.
Qed.

End SplitFacts.

Lemma class_space_cs (c : code_unit) : atom_match false space c = is_space c.
Proof. cbn. now rewrite orb_false_r. Qed.

Lemma class_noise_cs (c : code_unit) :
  atom_match false (one_of [ch "`"; CChar dqc; ch "'"; ch "{"; ch "}"]) c = is_class_noise c.
Proof.
  cbn. unfold is_class_noise, ch, cu. cbn.
  destruct (c =? 96)%N, (c =? dqc)%N, (c =? 39)%N, (c =? 123)%N, (c =? 125)%N; reflexivity.
Qed.

Lemma class_noise_replaced (v : jsstring) :
  String_replace class_noise (const_repl (js " ")) v =
  flat_map (fun c => if is_class_noise c then js " " else [c]) v.
Proof.
  unfold class_noise. rewrite replace_atom. apply flat_map_ext. intros c.
  now rewrite class_noise_cs.
Qed.

Lemma split_nonempty (r : regex) (c : code_unit) (s : jsstring) :
  split false r (c :: s) = split_go false r (c :: s) [] 0.
Proof. reflexivity. Qed.

Lemma filter_truthy_concat (l : list jsstring) : concat (filter truthy l) = concat l.
Proof.
  induction l as [|t l IH]; [reflexivity|]. cbn [filter].
  destruct t; cbn [truthy concat]; [exact IH|]. now rewrite IH.
Qed.

Lemma filter_truthy_nonempty (l : list jsstring) : Forall (fun t => t <> []) (filter truthy l).
Proof.
  apply Forall_forall. intros t H. apply filter_In in H. destruct H as [_ H].
  intros ->. discriminate.
Qed.

(** ** splitClasses *)

Lemma splitClasses_clean (value : option jsstring) :
  Forall (fun t => t <> [] /\ Forall (fun c => class_char c = true) t) (splitClasses value).
Proof.
  destruct value as [v|]; [|constructor]. unfold splitClasses.
  destruct v as [|c0 v0]; [constructor|]. cbn [truthy negb].
  set (v := c0 :: v0). rewrite class_noise_replaced.
  assert (Q : Forall (fun c => is_class_noise c = false)
                (flat_map (fun c => if is_class_noise c then js " " else [c]) v)).
  { clearbody v. induction v as [|c v IH]; [constructor|]. cbn [flat_map].
    apply Forall_app. split; [|exact IH].
    destruct (is_class_noise c) eqn:E; repeat constructor. exact E. }
  set (w := flat_map _ v) in *.
  assert (P : Forall (Forall (fun c => is_class_noise c = false /\ atom_match false space c = false))
                (split false spaces w)).
  { destruct w as [|c w]; [repeat constructor|].
    rewrite split_nonempty. apply split_go_pieces; [exact Q|constructor]. }
  pose proof (filter_truthy_nonempty (split false spaces w)) as N.
  rewrite Forall_forall in *. intros t Ht. split; [now apply N|].
  apply filter_In in Ht. destruct Ht as [Ht _]. specialize (P t Ht).
  rewrite Forall_forall in *. intros c Hc. destruct (P c Hc) as [Hn Hs].
  rewrite class_space_cs in Hs. unfold class_char. now rewrite Hn, Hs.
Qed.

(** X6.  Every token [splitClasses] returns is non-empty and has no white
    space, no quote of any kind and no brace. *)
Theorem splitClasses_tokens (value : option jsstring) :
  Forall (fun t => t <> [] /\ Forall (fun c => class_char c = true) t) (splitClasses value).
Proof. apply splitClasses_clean. Qed.

(** X7.  [splitClasses] loses no character of a class name: its tokens,
    one after the other, are the value without its white space, quotes and
    braces. *)
Theorem splitClasses_concat (v : jsstring) :
  concat (splitClasses (Some v)) = filter class_char v.
Proof.
  unfold splitClasses. destruct v as [|c0 v0]; [reflexivity|]. cbn [truthy negb].
  set (v := c0 :: v0). rewrite class_noise_replaced, filter_truthy_concat.
  set (w := flat_map _ v).
  assert (E : concat (split false spaces w) = filter (fun c => negb (atom_match false space c)) w).
  { destruct w as [|c w]; [reflexivity|].
    rewrite split_nonempty. unfold spaces. rewrite split_go_concat by (right; reflexivity).
    reflexivity. }
  rewrite E. subst w. clearbody v. clear.
  induction v as [|c v IH]; [reflexivity|]. cbn [flat_map]. rewrite filter_app, IH.
  cbn [filter]. unfold class_char at 2. destruct (is_class_noise c) eqn:En.
  - rewrite andb_false_r. reflexivity.
  - rewrite andb_true_r. cbn [filter]. rewrite class_space_cs.
    destruct (is_space c); reflexivity.
Qed.

Section SplitJoin.

Variable a : atom.
Variable sp : code_unit.
Hypothesis sp_sep : atom_match false a sp = true.

Lemma split_go_token (t s cur : jsstring) :
  Forall (fun c => atom_match false a c = false) t ->
  split_go false (Plus true a) (t ++ s) cur 0 = split_go false (Plus true a) s (rev t ++ cur) 0.
Proof.
  intros F. revert cur. induction F as [|c t Hc F IH]; intros cur; [reflexivity|].
  cbn [app split_go]. rewrite match_here_plus, Hc, IH. cbn [rev]. now rewrite <- app_assoc.
Qed.

Lemma split_go_join (l : list jsstring) : forall t cur,
  Forall (fun t => t <> [] /\ Forall (fun c => atom_match false a c = false) t) (t :: l) ->
  split_go false (Plus true a) (join [sp] (t :: l)) cur 0 = (rev cur ++ t) :: l.
Proof.
  induction l as [|t' l IH]; intros t cur F; inversion F as [|? ? [Ht Ft] F']; subst.
  - cbn [join]. rewrite <- (app_nil_r t) at 1. rewrite split_go_token by exact Ft.
    cbn [split_go]. now rewrite rev_app_distr, rev_involutive.
  - change (join [sp] (t :: t' :: l)) with (t ++ [sp] ++ join [sp] (t' :: l)).
    rewrite split_go_token by exact Ft.
    assert (D : drop_while (atom_match false a) (join [sp] (t' :: l)) = join [sp] (t' :: l)).
    { inversion F' as [|? ? [Ht' Ft'] _]; subst. destruct t' as [|c t']; [contradiction|].
      inversion Ft'; subst.
      destruct l; cbn [join app drop_while]; now rewrite H1. }
    cbn [app split_go]. rewrite match_here_plus, sp_sep, D.
    unfold matched_len. cbn [length]. 
    replace (S (length (join [sp] (t' :: l))) - length (join [sp] (t' :: l))) with 1 by lia.
    rewrite IH by exact F'. now rewrite rev_app_distr, rev_involutive.
Qed.

End SplitJoin.

Lemma class_char_cases (c : code_unit) :
  class_char c = true -> is_space c = false /\ is_class_noise c = false.
Proof.
  unfold class_char. rewrite andb_true_iff, !negb_true_iff. tauto.
Qed.

Lemma filter_truthy_id (l : list jsstring) :
  Forall (fun t => t <> []) l -> filter truthy l = l.
Proof.
  induction 1 as [|x l Hx F IH]; [reflexivity|].
  cbn [filter]. destruct x; [contradiction|]. cbn [truthy]. now rewrite IH.
Qed.

(** X8.  [splitClasses] reads back a class list: class names without white
    space, quotes and braces, joined by single spaces, are returned as
    they were joined. *)
Theorem splitClasses_join (l : list jsstring) :
  Forall (fun t => t <> [] /\ Forall (fun c => class_char c = true) t) l ->
  splitClasses (Some (join (js " ") l)) = l.
Proof.
  intros F. destruct l as [|t l]; [reflexivity|].
  assert (N : Forall (fun c => is_class_noise c = false) (join (js " ") (t :: l))).
  { clear -F. revert t F. induction l as [|t' l IH]; intros t F; inversion F as [|? ? [_ Ft] F']; subst.
    - cbn [join]. eapply Forall_impl; [|exact Ft]. intros c Hc. now apply class_char_cases in Hc.
    - change (join (js " ") (t :: t' :: l)) with (t ++ js " " ++ join (js " ") (t' :: l)).
      apply Forall_app. split.
      + eapply Forall_impl; [|exact Ft]. intros c Hc. now apply class_char_cases in Hc.
      + apply Forall_app. split; [repeat constructor|]. now apply IH. }
  assert (S : Forall (fun t => t <> [] /\ Forall (fun c => atom_match false space c = false) t) (t :: l)).
  { eapply Forall_impl; [|exact F]. intros x [Hx Fx]. split; [exact Hx|].
    eapply Forall_impl; [|exact Fx]. intros c Hc. rewrite class_space_cs.
    now apply class_char_cases in Hc. }
  unfold splitClasses.
  assert (T : truthy (join (js " ") (t :: l)) = true).
  { inversion F as [|? ? [Ht _] _]; subst. destruct t; [contradiction|]. destruct l; reflexivity. }
  rewrite T. cbn [negb]. rewrite class_noise_replaced.
  replace (flat_map _ (join (js " ") (t :: l))) with (join (js " ") (t :: l)).
  - destruct (join (js " ") (t :: l)) as [|c w] eqn:J; [discriminate|].
    rewrite split_nonempty, <- J. unfold spaces. change (js " ") with (@cons code_unit 32%N []).
    rewrite (@split_go_join space 32%N eq_refl l t [] S). cbn [rev app].
    apply filter_truthy_id. eapply Forall_impl; [|exact F]. now intros x [Hx _].
  - clear -N. induction N as [|c w Hc N IH]; [reflexivity|].
    cbn [flat_map]. rewrite Hc, <- IH. reflexivity.
Qed.

Lemma splitClasses_join_witness :
  Forall (fun t => t <> [] /\ Forall (fun c => class_char c = true) t)
    [js "arena-btn"; js "px-4"; js "hover:bg-blue"] /\
  splitClasses (Some (join (js " ") [js "arena-btn"; js "px-4"; js "hover:bg-blue"])) =
  [js "arena-btn"; js "px-4"; js "hover:bg-blue"].
Proof.
  assert (F : Forall (fun t => t <> [] /\ Forall (fun c => class_char c = true) t)
                [js "arena-btn"; js "px-4"; js "hover:bg-blue"])
    by (repeat (constructor; [split; [discriminate|repeat constructor]|]); constructor).
  split; [exact F|apply splitClasses_join; exact F].
Defined.

(** ** Dynamic class expressions *)

Lemma class_quote_cs (c : code_unit) :
  atom_match false (one_of [CChar dqc; ch "'"; ch "`"]) c = is_quote c.
Proof.
  cbn. unfold is_quote, ch, cu. cbn.
  destruct (c =? dqc)%N, (c =? 39)%N, (c =? 96)%N; reflexivity.
Qed.

Lemma class_expr_sep_cs (c : code_unit) :
  atom_match false (one_of [CSpace; ch "+"; ch "|"]) c =
  (is_space c || (c =? cu "+") || (c =? cu "|"))%N.
Proof.
  cbn. unfold ch, cu. cbn.
  destruct (is_space c), (c =? 43)%N, (c =? 124)%N; reflexivity.
Qed.

Lemma drop_while_Forall (P : code_unit -> Prop) (q : code_unit -> bool) (s : jsstring) :
  Forall P s -> Forall P (drop_while q s).
Proof.
  induction 1 as [|c s Hc F IH]; [constructor|]. cbn [drop_while].
  destruct (q c); [exact IH|]. now constructor.
Qed.

Lemma trim_Forall (P : code_unit -> Prop) (s : jsstring) : Forall P s -> Forall P (trim s).
Proof.
  intros F. unfold trim. apply Forall_rev, drop_while_Forall, Forall_rev, drop_while_Forall, F.
Qed.

(** X9.  The value [convertClassBindings] writes for a dynamic class
    expression is a list of tokens joined by single spaces; a token is
    non-empty and has no white space, no quote of any kind, no [+] and no
    [|]. *)
Theorem flatten_class_expr_tokens (expr : jsstring) :
  exists l,
    flatten_class_expr expr = join (js " ") l /\
    Forall (fun t => t <> [] /\ Forall (fun c => expr_char c = true) t) l.
Proof.
  unfold flatten_class_expr. eexists. split; [reflexivity|].
  set (tok := fun token => trim (String_replace any_quote (const_repl []) token)).
  assert (P : Forall (Forall (fun c => True /\
                atom_match false (one_of [CSpace; ch "+"; ch "|"]) c = false))
                (split false class_expr_sep expr)).
  { destruct expr as [|c w]; [repeat constructor|].
    rewrite split_nonempty. apply split_go_pieces; [|constructor].
    apply Forall_forall. auto. }
  pose proof (filter_truthy_nonempty (map tok (split false class_expr_sep expr))) as N.
  rewrite Forall_forall in *. intros t Ht. split; [now apply N|].
  apply filter_In in Ht. destruct Ht as [Ht _]. apply in_map_iff in Ht.
  destruct Ht as (x & <- & Hx). specialize (P x Hx). unfold tok, any_quote.
  apply trim_Forall. rewrite replace_atom. clear -P.
  induction P as [|c x [_ Hc] P IH]; [constructor|]. cbn [flat_map].
  rewrite class_quote_cs. rewrite class_expr_sep_cs in Hc.
  rewrite !orb_false_iff in Hc. destruct Hc as [[H1 H2] H3].
  destruct (is_quote c) eqn:Q; [exact IH|]. constructor; [|exact IH].
  unfold expr_char. now rewrite H1, Q, H2, H3.
Qed.

(** ** Replacing a literal

    The global replacement of a literal [w] by a text [u] whose first
    character occurs nowhere else in the word [t] looked for. *)

Lemma clash_starts (t v X : jsstring) :
  clash t v = true -> starts_with_ci false t (v ++ X) = None.
Proof.
  revert v. induction t as [|a t IH]; intros [|b v] H; try discriminate.
  cbn [clash] in H. cbn [app starts_with_ci canon].
  destruct (b =? a)%N eqn:E; [|reflexivity].
  apply N.eqb_eq in E. subst b. rewrite N.eqb_refl in H. cbn in H. auto.
Qed.

Lemma occurs_app_clash (t u Y : jsstring) :
  all_clash t u = true -> occurs false t Y = false -> occurs false t (u ++ Y) = false.
Proof.
  induction u as [|c u IH]; intros H O; [exact O|].
  cbn [all_clash] in H. apply andb_true_iff in H. destruct H as [H1 H2].
  cbn [app occurs]. change (c :: u ++ Y) with ((c :: u) ++ Y).
  rewrite (clash_starts _ _ Y H1). cbn [app]. auto.
Qed.

Lemma match_here_lit (w : string) (s : jsstring) :
  match_here false (lit w) s =
  match starts_with_ci false (js w) s with
  | Some s' => Some (s', [])
  | None => None
  end.
Proof. unfold match_here. apply run_lit. Qed.

Section LiteralReplace.

Variable w : string.
Variable u : jsstring.
Hypothesis w_nonempty : js w <> [].

Lemma replace_lit_nil : replace_go false (lit w) (const_repl u) [] 0 = [].
Proof.
  cbn [replace_go]. rewrite match_here_lit.
  destruct (js w) eqn:E; [contradiction|reflexivity].
Qed.

Lemma replace_lit_hit (s rest : jsstring) :
  starts_with_ci false (js w) s = Some rest -> replace_go false (lit w) (const_repl u) s 0 = u ++ replace_go false (lit w) (const_repl u) rest 0.
Proof.
  intros H. destruct (starts_with_ci_app _ _ _ H) as (w' & -> & L).
  apply (@replace_go_match false (lit w) (const_repl u) w' rest []).
  - intros ->. destruct (js w); [contradiction|discriminate].
  - now rewrite match_here_lit, H.
Qed.

Lemma replace_lit_miss (c : code_unit) (s : jsstring) :
  starts_with_ci false (js w) (c :: s) = None -> replace_go false (lit w) (const_repl u) (c :: s) 0 = c :: replace_go false (lit w) (const_repl u) s 0.
Proof. intros H. apply replace_go_miss. now rewrite match_here_lit, H. Qed.

Variable h : code_unit.
Variable u' : jsstring.
Hypothesis u_head : u = h :: u'.

(** What the output starts with, when it is free of the first character
    of the replacement, the input starts with. *)
Lemma replace_lit_start (x : jsstring) : forall s r,
  Forall (fun c => (c =? h)%N = false) x ->
  starts_with_ci false x (replace_go false (lit w) (const_repl u) s 0) = Some r ->
  exists r', starts_with_ci false x s = Some r'.
Proof.
  induction x as [|a x IH]; intros s r F H; [cbn; eauto|].
  apply Forall_cons_iff in F. destruct F as [Ha F'].
  destruct s as [|c s].
  - rewrite replace_lit_nil in H. discriminate.
  - destruct (starts_with_ci false (js w) (c :: s)) as [rest|] eqn:E.
    + rewrite (@replace_lit_hit (c :: s) rest E), u_head in H. cbn [app starts_with_ci canon] in H.
      rewrite N.eqb_sym, Ha in H. discriminate.
    + rewrite (@replace_lit_miss c s E) in H. cbn [starts_with_ci canon] in H |- *.
      destruct (c =? a)%N; [|discriminate]. eapply IH; eauto.
Qed.

Variable t x : jsstring.
Hypothesis t_head : t = h :: x.
Hypothesis x_free : Forall (fun c => (c =? h)%N = false) x.
Hypothesis inside : all_clash t u = true.

Lemma covered_suffix (a b : jsstring) : covered w t (a ++ b) -> covered w t b.
Proof.
  induction a as [|c a IH]; [auto|]. cbn [app covered]. intros [_ H]. auto.
Qed.

Lemma replace_lit_fresh (n : nat) : forall s,
  length s <= n -> covered w t s -> occurs false t (replace_go false (lit w) (const_repl u) s 0) = false.
Proof.
  induction n as [|n IH]; intros s L C.
  - destruct s; [|simpl in L; lia]. rewrite replace_lit_nil, t_head. reflexivity.
  - destruct s as [|c s]; [rewrite replace_lit_nil, t_head; reflexivity|].
    destruct (starts_with_ci false (js w) (c :: s)) as [rest|] eqn:E.
    + rewrite (@replace_lit_hit (c :: s) rest E). apply occurs_app_clash; [exact inside|].
      destruct (starts_with_ci_app _ _ _ E) as (w' & E' & Lw).
      apply IH.
      * apply (f_equal (@length _)) in E'. rewrite length_app in E'.
        destruct (js w); [contradiction|]. simpl in *. lia.
      * rewrite E' in C. now apply covered_suffix in C.
    + rewrite (@replace_lit_miss c s E). cbn [occurs].
      destruct (starts_with_ci false t (c :: replace_go false (lit w) (const_repl u) s 0)) as [r|] eqn:T.
      * exfalso. rewrite t_head in T. cbn [starts_with_ci canon] in T.
        destruct (c =? h)%N eqn:Ec; [|discriminate].
        destruct (@replace_lit_start x s r x_free T) as [r' R].
        destruct C as [[C|C] _]; [|congruence].
        rewrite t_head in C. cbn [starts_with_ci canon] in C. rewrite Ec in C. congruence.
      * apply IH; [simpl in L; lia|]. now destruct C.
Qed.

End LiteralReplace.

Lemma covered_self (w : string) (s : jsstring) : covered w (js w) s.
Proof.
  induction s as [|c s IH]; cbn [covered]; (split; [|auto]);
    destruct (starts_with_ci false (js w) _); auto; right; discriminate.
Qed.

Lemma covered_absent (w : string) (t s : jsstring) :
  occurs false t s = false -> covered w t s.
Proof.
  induction s as [|c s IH]; cbn [covered occurs]; intros H;
    destruct (starts_with_ci false t _); try discriminate; auto.
Qed.

Lemma replace_const_Forall (ic : bool) (r : regex) (u : jsstring) (P : code_unit -> Prop)
    (s : jsstring) : forall n,
  Forall P u -> Forall P s -> Forall P (replace_go ic r (const_repl u) s n).
Proof.
  intros n U. revert n. induction s as [|c s IH]; intros n F.
  - destruct n; cbn [replace_go]; [|constructor].
    destruct (match_here ic r []) as [[rest caps]|]; [|constructor].
    rewrite app_nil_r. exact U.
  - inversion F; subst. destruct n; cbn [replace_go]; [|auto].
    destruct (match_here ic r (c :: s)) as [[rest caps]|].
    + apply Forall_app. split; [exact U|].
      destruct (matched_len (c :: s) rest); [constructor|]; auto.
    + constructor; auto.
Qed.

(** ** Fragments and class names *)

(** X10.  [stripJsxArtifacts] leaves no fragment marker: its output
    contains neither [<>] nor [</>], whatever the input. *)
Theorem stripJsxArtifacts_no_fragments (source : jsstring) :
  occurs false (js "<>") (stripJsxArtifacts source) = false /\
  occurs false (js "</>") (stripJsxArtifacts source) = false.
Proof.
  unfold stripJsxArtifacts.
  set (s5 := String_replace (g (braced_string "" (cu "'"))) _ _).
  unfold String_replace, replace_all. cbn [re_ignoreCase re_source g].
  set (D := js "<div class=" ++ quoted "arena-fragment" ++ js ">").
  set (s6 := replace_go false (lit "<>") (const_repl D) s5 0).
  assert (O6 : occurs false (js "<>") s6 = false).
  { apply (@replace_lit_fresh "<>" D ltac:(discriminate) (cu "<") (tl D) eq_refl
             (js "<>") (js ">") eq_refl ltac:(repeat constructor) eq_refl (length s5) s5 (le_n _)).
    apply covered_self. }
  split.
  - apply (@replace_lit_fresh "</>" (js "</div>") ltac:(discriminate) (cu "<") (js "/div>") eq_refl
             (js "<>") (js ">") eq_refl ltac:(repeat constructor) eq_refl (length s6) s6 (le_n _)).
    now apply covered_absent.
  - apply (@replace_lit_fresh "</>" (js "</div>") ltac:(discriminate) (cu "<") (js "/div>") eq_refl
             (js "</>") (js "/>") eq_refl ltac:(repeat constructor) eq_refl (length s6) s6 (le_n _)).
    apply covered_self.
Qed.

(** X11.  On a text without [{], [convertClassBindings] leaves no
    [className=] behind. *)
Theorem convertClassBindings_renames (source : jsstring) :
  lacks (cu "{") source ->
  occurs false (js "className=") (convertClassBindings source) = false.
Proof.
  intros F. unfold convertClassBindings.
  set (s1 := String_replace (g (lit "className=")) (const_repl (js "class=")) source).
  assert (F1 : Forall (fun c => is_open_brace c = false) s1).
  { apply replace_const_Forall; [repeat constructor|exact F]. }
  repeat inert_pass is_open_brace s1 F1.
  apply (@replace_lit_fresh "className=" (js "class=") ltac:(discriminate) (cu "c") (js "lass=")
           eq_refl (js "className=") (js "lassName=") eq_refl ltac:(repeat constructor) eq_refl
           (length source) source (le_n _)).
  apply covered_self.
Qed.

Lemma convertClassBindings_renames_witness :
  lacks (cu "{") (js "<p className='lead'>className=x</p>") /\
  occurs false (js "className=")
    (convertClassBindings (js "<p className='lead'>className=x</p>")) = false.
Proof.
  assert (F : lacks (cu "{") (js "<p className='lead'>className=x</p>"))
    by (repeat constructor).
  split; [exact F|apply convertClassBindings_renames; exact F].
Defined.

(** ** Markup the rewriting stages leave alone *)

Lemma opening_tag_capital (a : ascii) (name : string) (rest : regex) (s : jsstring) :
  is_upper (cu a) = true ->
  capital_tag_here s = false ->
  match_here false (Seq (lit (String "<" (String a name))) rest) s = None.
Proof.
  intros U H. unfold match_here. cbn [run]. rewrite run_lit.
  destruct s as [|c [|d s]]; try reflexivity.
  - cbn. destruct (c =? 60)%N; reflexivity.
  - cbn [js list_ascii_of_string map starts_with_ci canon].
    destruct (c =? cu "<")%N eqn:Ec; [|reflexivity].
    destruct (d =? cu a)%N eqn:Ed; [|reflexivity].
    apply N.eqb_eq in Ed. subst d. cbn [capital_tag_here] in H.
    change lt_sign with (cu "<") in H. rewrite Ec, U in H. discriminate.
Qed.

Lemma closing_tag_capital (a : ascii) (name : string) (s : jsstring) :
  is_upper (cu a) = true ->
  capital_tag_here s = false ->
  match_here false (lit (String "<" (String "/" (String a name)))) s = None.
Proof.
  intros U H. rewrite match_here_lit.
  destruct s as [|c [|d [|e s]]]; try reflexivity.
  - cbn. destruct (c =? 60)%N; reflexivity.
  - cbn. destruct (c =? 60)%N; [|reflexivity]. destruct (d =? 47)%N; reflexivity.
  - cbn [js list_ascii_of_string map starts_with_ci canon].
    destruct (c =? cu "<")%N eqn:Ec; [|reflexivity].
    destruct (d =? cu "/")%N eqn:Ed; [|reflexivity].
    destruct (e =? cu a)%N eqn:Ee; [|reflexivity].
    apply N.eqb_eq in Ee. subst e. cbn [capital_tag_here] in H.
    change lt_sign with (cu "<") in H. rewrite Ec, Ed, U, orb_true_r in H. discriminate.
Qed.

Lemma has_capital_tag_quiet (r : regex) (s : jsstring) :
  (forall s', capital_tag_here s' = false -> match_here false r s' = None) ->
  has_capital_tag s = false -> quiet false r s.
Proof.
  intros G. induction s as [|c s IH]; cbn [has_capital_tag quiet]; intros H;
    apply orb_false_iff in H; destruct H as [H1 H2]; split; auto.
Qed.

Ltac capital_pass s H :=
  match goal with
  | |- context [String_replace ?R ?f s] =>
      rewrite (@String_replace_untouched R f s)
        by (apply test_quiet, has_capital_tag_quiet; [|exact H];
            intros s' Hs';
            first [ apply opening_tag_capital; [reflexivity|exact Hs']
                  | apply closing_tag_capital; [reflexivity|exact Hs'] ])
  end.

Lemma convertCustomComponents_untouched (source : jsstring) :
  has_capital_tag source = false -> convertCustomComponents source = source.
Proof.
  intros H. unfold convertCustomComponents, replaceComponent, replaceSelfClosing.
  repeat capital_pass source H. reflexivity.
Qed.

(** X12.  [convertCustomComponents] changes nothing in a text in which no
    [<] and no [</] is followed by a capital letter: markup whose tag
    names start in lower case passes through as it is. *)
Theorem convertCustomComponents_plain_tags (source : jsstring) :
  has_capital_tag source = false -> convertCustomComponents source = source.
Proof. apply convertCustomComponents_untouched. Qed.

Lemma convertCustomComponents_plain_tags_witness :
  has_capital_tag (js "<div id='a'>Hello <b>World</b> 1 < 2</div>") = false /\
  convertCustomComponents (js "<div id='a'>Hello <b>World</b> 1 < 2</div>") =
  js "<div id='a'>Hello <b>World</b> 1 < 2</div>".
Proof. split; [reflexivity|apply convertCustomComponents_plain_tags; reflexivity]. Defined.

Lemma occurs_quiet (w : string) (s : jsstring) :
  occurs false (js w) s = false -> quiet false (lit w) s.
Proof.
  induction s as [|c s IH]; cbn [occurs quiet]; rewrite match_here_lit;
    destruct (starts_with_ci false (js w) _); try discriminate; auto.
Qed.

Lemma lit_pass_absent (w : string) (f : jsstring -> captures -> jsstring) (s : jsstring) :
  occurs false (js w) s = false -> String_replace (g (lit w)) f s = s.
Proof.
  intros H. apply String_replace_untouched, test_quiet. now apply occurs_quiet.
Qed.

(** X13.  For a section without [{], without the fragment markers [<>] and
    [</>], without [className=] and without a tag whose name starts with a
    capital letter, [normalizeSection] is [sanitizeMarkup]: the three
    rewriting stages change nothing. *)
Theorem normalizeSection_plain_markup (section : jsstring) :
  lacks (cu "{") section ->
  occurs false (js "<>") section = false ->
  occurs false (js "</>") section = false ->
  occurs false (js "className=") section = false ->
  has_capital_tag section = false ->
  normalizeSection section = sanitizeMarkup section.
Proof.
  intros B F1 F2 C T. unfold normalizeSection.
  destruct (truthy section) eqn:E; [|destruct section; [reflexivity|discriminate]].
  cbn [negb]. f_equal.
  assert (S : stripJsxArtifacts section = section).
  { unfold stripJsxArtifacts. repeat inert_pass is_open_brace section B.
    rewrite (@lit_pass_absent "<>" _ section F1). now apply lit_pass_absent. }
  assert (K : convertClassBindings section = section).
  { unfold convertClassBindings. rewrite lit_pass_absent by exact C.
    repeat inert_pass is_open_brace section B. reflexivity. }
  rewrite S, K. now apply convertCustomComponents_untouched.
Qed.

Lemma normalizeSection_plain_markup_witness :
  let section := js "<div class='x' onclick='go()'>Hello World</div>" in
  (lacks (cu "{") section /\ occurs false (js "<>") section = false /\
   occurs false (js "</>") section = false /\
   occurs false (js "className=") section = false /\ has_capital_tag section = false) /\
  normalizeSection section = sanitizeMarkup section.
Proof.
  cbv zeta.
  assert (F : lacks (cu "{") (js "<div class='x' onclick='go()'>Hello World</div>"))
    by (repeat constructor).
  split; [repeat split; try reflexivity; exact F|].
  apply normalizeSection_plain_markup; try reflexivity. exact F.
Defined.

(** ** What the sanitizer keeps *)

Lemma subseq_refl (s : jsstring) : subseq s s.
Proof. induction s; constructor; auto. Qed.

Lemma subseq_trans (a b c : jsstring) : subseq a b -> subseq b c -> subseq a c.
Proof.
  intros H1 H2. revert a H1. induction H2 as [|x b c H2 IH|x b c H2 IH]; intros a H1.
  - exact H1.
  - inversion H1; subst; constructor; auto.
  - constructor. auto.
Qed.

Lemma delete_subseq (ic : bool) (r : regex) (s : jsstring) : forall n,
  subseq (replace_go ic r (const_repl []) s n) s.
Proof.
  induction s as [|c s IH]; intros n.
  - destruct n; cbn [replace_go]; [|constructor].
    destruct (match_here ic r []) as [[rest caps]|]; constructor.
  - destruct n; cbn [replace_go]; [|constructor; auto].
    destruct (match_here ic r (c :: s)) as [[rest caps]|]; cbn [const_repl app].
    + destruct (matched_len (c :: s) rest); constructor; auto.
    + constructor; auto.
Qed.

Lemma passes_subseq (l : list RegExp) : forall s, subseq (passes l s) s.
Proof.
  induction l as [|R l IH]; intros s; [apply subseq_refl|].
  change (subseq (passes l (String_replace R (const_repl []) s)) s).
  eapply subseq_trans; [apply IH|]. apply delete_subseq.
Qed.

(** X14.  [sanitizeMarkup] only deletes: its output is its input with some
    characters left out, in the same order; it adds and moves nothing. *)
Theorem sanitizeMarkup_only_deletes (source : jsstring) :
  subseq (sanitizeMarkup source) source.
Proof. apply (passes_subseq sanitizer_patterns). Qed.

(** ** The candidate section *)

Lemma search_from_substring (ic : bool) (r : regex) (s : jsstring) : forall pos m,
  search_from ic r s pos = Some m -> exists a b, s = a ++ m_text m ++ b.
Proof.
  induction s as [|c s IH]; intros pos m H; cbn [search_from] in H.
  - destruct (match_here ic r []) as [[rest caps]|]; [|discriminate].
    inversion H; subst. cbn. exists [], []. reflexivity.
  - destruct (match_here ic r (c :: s)) as [[rest caps]|] eqn:E.
    + inversion H; subst. cbn [m_text]. exists [].
      exists (skipn (matched_len (c :: s) rest) (c :: s)). cbn [app].
      symmetry. apply firstn_skipn.
    + destruct (IH _ _ H) as (a & b & ->). exists (c :: a), b. reflexivity.
Qed.

Lemma drop_while_suffix (p : code_unit -> bool) (s : jsstring) :
  exists a, s = a ++ drop_while p s /\ Forall (fun c => p c = true) a.
Proof.
  induction s as [|c s (a & E & F)]; [exists []; auto|]. cbn [drop_while].
  destruct (p c) eqn:Ep.
  - exists (c :: a). cbn [app]. split; [now rewrite <- E|now constructor].
  - exists []. auto.
Qed.

Lemma trim_substring (s : jsstring) :
  exists a b, s = a ++ trim s ++ b /\ all_space a /\ all_space b.
Proof.
  unfold trim. destruct (drop_while_suffix is_space s) as (a & Ea & Fa).
  destruct (drop_while_suffix is_space (rev (drop_while is_space s))) as (b & Eb & Fb).
  exists a, (rev b). split; [|split; [exact Fa|now apply Forall_rev]].
  rewrite Ea at 1. f_equal. rewrite <- (rev_involutive (drop_while is_space s)), Eb at 1.
  now rewrite rev_app_distr.
Qed.

(** X15.  The [rawSection] that [extractPrimarySection] returns is a
    contiguous part of the response text. *)
Theorem rawSection_substring (responseText : jsstring) :
  exists a b, responseText = a ++ rawSection (extractPrimarySection responseText) ++ b.
Proof.
  rewrite rawSection_selected. unfold selected, hero_match, main_match.
  rewrite !RegExp_exec_not_global by reflexivity. cbn [fst].
  destruct (search_from _ (re_source HERO_SECTION_REGEX) responseText 0) as [hm|] eqn:H;
    cbn [option_map].
  - eapply search_from_substring; eauto.
  - destruct (search_from _ (re_source MAIN_SECTION_REGEX) responseText 0) as [mm|] eqn:M;
      cbn [option_map].
    + eapply search_from_substring; eauto.
    + destruct (truthy (trim responseText)).
      * destruct (trim_substring responseText) as (a & b & E & _). eauto.
      * exists [], []. now rewrite app_nil_r.
Qed.

Lemma hero_match_truthy (s m : jsstring) : hero_match s = Some m -> truthy m = true.
Proof.
  unfold hero_match. rewrite RegExp_exec_not_global by reflexivity. cbn [fst].
  destruct (search_from _ _ s 0) as [mr|] eqn:E; [|discriminate].
  simpl. intros H. inversion H; subst.
  apply search_from_nonempty in E. change (min_len (re_source HERO_SECTION_REGEX)) with 26 in E.
  destruct (m_text mr); [simpl in E; lia|reflexivity].
Qed.

(** X16.  [rawSection] is the empty string only for the empty response. *)
Theorem rawSection_empty_iff (responseText : jsstring) :
  rawSection (extractPrimarySection responseText) = [] <-> responseText = [].
Proof.
  split; [|intros ->; reflexivity].
  rewrite rawSection_selected. unfold selected.
  destruct (hero_match responseText) as [h|] eqn:H.
  - intros ->. apply hero_match_truthy in H. discriminate.
  - destruct (main_match responseText) as [m|] eqn:M.
    + intros ->. apply main_match_truthy in M. discriminate.
    + destruct (truthy (trim responseText)) eqn:T; [|auto].
      intros E. rewrite E in T. discriminate.
Qed.

Lemma drop_while_nil (p : code_unit -> bool) (s : jsstring) :
  drop_while p s = [] -> Forall (fun c => p c = true) s.
Proof.
  induction s as [|c s IH]; [constructor|]. cbn [drop_while].
  destruct (p c) eqn:E; [|discriminate]. intros H. constructor; auto.
Qed.

Lemma drop_while_head (p : code_unit -> bool) (s : jsstring) (c : code_unit) (s' : jsstring) :
  drop_while p s = c :: s' -> p c = false.
Proof.
  induction s as [|d s IH]; [discriminate|]. cbn [drop_while].
  destruct (p d) eqn:E; [exact IH|]. intros H. inversion H; subst. exact E.
Qed.

Lemma trim_nil (s : jsstring) : trim s = [] -> all_space s.
Proof.
  unfold trim. intros H. apply (f_equal (@rev _)) in H. rewrite rev_involutive in H.
  cbn [rev] in H. apply drop_while_nil in H. apply Forall_rev in H.
  rewrite rev_involutive in H.
  destruct (drop_while is_space s) as [|c s'] eqn:E.
  - now apply drop_while_nil.
  - apply drop_while_head in E. inversion H; subst. congruence.
Qed.

(** X17.  [extractFallbackSection] returns [null] exactly for a source that
    is empty or white space only. *)
Theorem extractFallbackSection_null_iff_blank (source : jsstring) :
  extractFallbackSection source = None <-> all_space source.
Proof.
  unfold extractFallbackSection, extractFallbackSection_in. cbn [main_lastIndex initial_state].
  split.
  - pose proof (@main_match_truthy source) as T. unfold main_match in T.
    destruct (RegExp_exec MAIN_SECTION_REGEX 0 source) as [[m|] li]; cbn [fst option_map] in *.
    + rewrite (T _ eq_refl). discriminate.
    + destruct (truthy (trim source)) eqn:E; [discriminate|]. intros _.
      apply trim_nil. destruct (trim source); [reflexivity|discriminate].
  - intros F. pose proof (all_space_not_space F) as F'.
    rewrite (@RegExp_exec_inert not_space MAIN_SECTION_REGEX source) by (exact F' || reflexivity).
    now rewrite (trim_all_space F).
Qed.

(** ** Where a match ends *)

Section FirstClose.

Variable ic : bool.

Lemma starts_with_ci_split (w s s' : jsstring) :
  starts_with_ci ic w s = Some s' ->
  exists o, s = o ++ s' /\ map (canon ic) o = map (canon ic) w.
Proof.
  revert s. induction w as [|x w IH]; intros s H; cbn [starts_with_ci] in H.
  - inversion H. exists []. auto.
  - destruct s as [|c s]; [discriminate|].
    destruct (canon ic c =? canon ic x)%N eqn:E; [|discriminate].
    apply N.eqb_eq in E. destruct (IH _ H) as (o & -> & Ho).
    exists (c :: o). cbn [map app]. now rewrite E, Ho.
Qed.

Lemma starts_with_ci_prefix (w x y r : jsstring) :
  starts_with_ci ic w x = Some r -> starts_with_ci ic w (x ++ y) = Some (r ++ y).
Proof.
  revert x. induction w as [|a w IH]; intros x H; cbn [starts_with_ci] in *.
  - now inversion H.
  - destruct x as [|c x]; [discriminate|]. cbn [app].
    destruct (canon ic c =? canon ic a)%N; [auto|discriminate].
Qed.

Lemma starts_with_ci_cut (w x y : jsstring) :
  starts_with_ci ic w (x ++ y) = None -> starts_with_ci ic w x = None.
Proof.
  intros H. destruct (starts_with_ci ic w x) as [r|] eqn:E; [|reflexivity].
  apply starts_with_ci_prefix with (y := y) in E. congruence.
Qed.

Lemma starts_with_ci_short (w s : jsstring) :
  length s < length w -> starts_with_ci ic w s = None.
Proof.
  revert s. induction w as [|a w IH]; intros s L; [simpl in L; lia|].
  destruct s as [|c s]; [reflexivity|]. cbn [starts_with_ci].
  destruct (canon ic c =? canon ic a)%N; [|reflexivity]. apply IH. simpl in L. lia.
Qed.

Lemma occurs_short (w s : jsstring) : length s < length w -> occurs ic w s = false.
Proof.
  induction s as [|c s IH]; intros L; cbn [occurs]; rewrite starts_with_ci_short by exact L;
    [reflexivity|]. apply IH. simpl in L. lia.
Qed.

Lemma occurs_false_app (w A B : jsstring) :
  (forall a1 c a2, A = a1 ++ c :: a2 -> starts_with_ci ic w (c :: a2 ++ B) = None) ->
  occurs ic w B = false -> occurs ic w (A ++ B) = false.
Proof.
  induction A as [|c A IH]; intros H O; [exact O|].
  cbn [app occurs]. rewrite (H [] c A eq_refl). apply IH; [|exact O].
  intros a1 c' a2 E. apply (H (c :: a1) c' a2). now rewrite E.
Qed.

(** The lazy star stops at the first place from which the rest of the
    pattern matches. *)
Lemma star_lazy_first (a : atom) (k : cont) (caps : captures) (s : jsstring) res :
  star_lazy ic a s caps k = Some res ->
  exists u rest, s = u ++ rest /\ Forall (fun c => atom_match ic a c = true) u /\
    k rest caps = Some res /\
    forall u1 c u2, u = u1 ++ c :: u2 -> k (c :: u2 ++ rest) caps = None.
Proof.
  induction s as [|c s IH]; cbn [star_lazy]; intros H.
  - destruct (k [] caps) eqn:E; [|discriminate]. inversion H; subst.
    exists [], []. repeat split; auto. intros [|? ?] ? ? ?; discriminate.
  - destruct (k (c :: s) caps) eqn:E.
    + inversion H; subst. exists [], (c :: s). repeat split; auto.
      intros [|? ?] ? ? ?; discriminate.
    + destruct (atom_match ic a c) eqn:Ea; [|discriminate].
      destruct (IH H) as (u & rest & -> & F & K & N).
      exists (c :: u), rest. repeat split; auto.
      intros [|d u1] c' u2 Eu; inversion Eu; subst; [exact E|]. eapply N; reflexivity.
Qed.

Lemma search_from_match (r : regex) (s : jsstring) : forall pos m,
  search_from ic r s pos = Some m ->
  exists a b caps, s = a ++ m_text m ++ b /\ match_here ic r (m_text m ++ b) = Some (b, caps).
Proof.
  induction s as [|c s IH]; intros pos m H; cbn [search_from] in H.
  - destruct (match_here ic r []) as [[rest caps]|] eqn:E; [|discriminate].
    inversion H; subst. cbn [m_text].
    destruct (match_here_sound _ _ _ E) as (w & Ew & _).
    symmetry in Ew. apply app_eq_nil in Ew. destruct Ew as [-> ->].
    exists [], [], caps. cbn. auto.
  - destruct (match_here ic r (c :: s)) as [[rest caps]|] eqn:E.
    + inversion H; subst. cbn [m_text].
      destruct (match_here_sound _ _ _ E) as (w & Ew & _).
      exists [], rest, caps. rewrite Ew in *. unfold matched_len.
      rewrite length_app, Nat.add_sub, firstn_app, firstn_all, Nat.sub_diag, firstn_0, app_nil_r.
      auto.
    + destruct (IH _ _ H) as (a & b & caps & Es & M).
      exists (c :: a), b, caps. cbn [app]. now rewrite <- Es.
Qed.

End FirstClose.

Lemma same_ci_length (a b : jsstring) : same_ci a b -> length a = length b.
Proof. intros H. apply (f_equal (@length _)) in H. now rewrite !length_map in H. Qed.

Lemma removelast_length (s : jsstring) : length (removelast s) = pred (length s).
Proof.
  induction s as [|c s IH]; [reflexivity|]. destruct s as [|d s]; [reflexivity|].
  change (removelast (c :: d :: s)) with (c :: removelast (d :: s)).
  cbn [length] in *. rewrite IH. reflexivity.
Qed.

Lemma lit_cont_none (w : string) (z : jsstring) (caps : captures) :
  run true (lit w) z caps (fun s' caps' => Some (s', caps')) = None ->
  starts_with_ci true (js w) z = None.
Proof. rewrite run_lit. destruct (starts_with_ci true (js w) z); [discriminate|auto]. Qed.

(** X18.  When the main pattern has a match, [extractFallbackSection]
    returns it; it starts with [<main] and ends with the first [</main>]
    after that, in any letter case: no other [</main>] occurs in it. *)
Theorem main_match_first_close (s m : jsstring) :
  main_match s = Some m ->
  extractFallbackSection s = Some m /\
  exists opener body closer,
    m = opener ++ body ++ closer /\
    same_ci opener (js "<main") /\ same_ci closer (js "</main>") /\
    occurs true (js "</main>") (opener ++ body ++ removelast closer) = false.
Proof.
  intros Hm. split.
  { pose proof (main_match_truthy _ Hm) as T. revert Hm.
    unfold main_match, extractFallbackSection, extractFallbackSection_in.
    cbn [main_lastIndex initial_state].
    destruct (RegExp_exec MAIN_SECTION_REGEX 0 s) as [[mr|] li]; [|discriminate].
    cbn [fst option_map]. intros H. inversion H; subst. now rewrite T. }
  revert Hm.
  unfold main_match. rewrite RegExp_exec_not_global by reflexivity. cbn [fst].
  destruct (search_from _ _ s 0) as [mr|] eqn:E; [|discriminate].
  cbn [option_map]. intros H. inversion H; subst. clear H.
  destruct (search_from_match _ _ _ _ E) as (a & b & caps & _ & M). clear E.
  unfold match_here in M. cbn [re_source MAIN_SECTION_REGEX re_ignoreCase run] in M.
  rewrite run_lit in M.
  destruct (starts_with_ci true (js "<main") (m_text mr ++ b)) as [s1|] eqn:E1; [|discriminate].
  destruct (starts_with_ci_split _ _ _ E1) as (o & Eo & Ho).
  apply star_lazy_first in M. destruct M as (u & s2 & -> & _ & K & N).
  rewrite run_lit in K.
  destruct (starts_with_ci true (js "</main>") s2) as [s3|] eqn:E2; [|discriminate].
  injection K as K _. subst s3. destruct (starts_with_ci_split _ _ _ E2) as (cl & -> & Hc).
  rewrite !app_assoc in Eo. apply app_inv_tail in Eo. rewrite <- !app_assoc in Eo.
  exists o, u, cl. split; [exact Eo|]. split; [exact Ho|]. split; [exact Hc|].
  assert (Lc : length cl = 7) by (apply same_ci_length in Hc; exact Hc).
  apply occurs_false_app; [|apply occurs_false_app].
  - destruct o as [|c1 [|c2 [|c3 [|c4 [|c5 [|]]]]]]; try discriminate.
    unfold canon in Ho. cbn [map js list_ascii_of_string] in Ho.
    injection Ho as H1 H2 H3 H4 H5.
    intros a1 c a2 Ea. 
    destruct a1 as [|? a1]; [injection Ea as <- <-|injection Ea as _ Ea].
    { cbn [js list_ascii_of_string map starts_with_ci app canon]. rewrite H1, H2. reflexivity. }
    destruct a1 as [|? a1]; [injection Ea as <- <-|injection Ea as _ Ea].
    { cbn [js list_ascii_of_string map starts_with_ci app canon]. rewrite H2. reflexivity. }
    destruct a1 as [|? a1]; [injection Ea as <- <-|injection Ea as _ Ea].
    { cbn [js list_ascii_of_string map starts_with_ci app canon]. rewrite H3. reflexivity. }
    destruct a1 as [|? a1]; [injection Ea as <- <-|injection Ea as _ Ea].
    { cbn [js list_ascii_of_string map starts_with_ci app canon]. rewrite H4. reflexivity. }
    destruct a1 as [|? a1]; [injection Ea as <- <-|injection Ea as _ Ea].
    { cbn [js list_ascii_of_string map starts_with_ci app canon]. rewrite H5. reflexivity. }
    destruct a1; discriminate.
  - intros u1 c u2 Eu. specialize (N u1 c u2 Eu). apply lit_cont_none in N.
    destruct (@exists_last _ cl) as (cl' & z & Ecl); [intros ->; discriminate|].
    rewrite Ecl in N |- *. rewrite removelast_last.
    apply starts_with_ci_cut with (y := [z] ++ b).
    rewrite <- N. f_equal. cbn [app]. now rewrite <- !app_assoc.
  - apply occurs_short. rewrite removelast_length, Lc. cbn. lia.
Qed.

Lemma main_match_first_close_witness :
  let s := js "<p>x</p><MAIN><main>a</main>b</main>" in
  let m := js "<MAIN><main>a</main>" in
  main_match s = Some m /\
  (extractFallbackSection s = Some m /\
   exists opener body closer,
     m = opener ++ body ++ closer /\
     same_ci opener (js "<main") /\ same_ci closer (js "</main>") /\
     occurs true (js "</main>") (opener ++ body ++ removelast closer) = false).
Proof.
  cbv zeta. split; [reflexivity|]. apply main_match_first_close. reflexivity.
Defined.

Lemma star_greedy_split (ic : bool) (a : atom) (k : cont) (caps : captures) (s : jsstring) res :
  star_greedy ic a s caps k = Some res ->
  exists u rest, s = u ++ rest /\ Forall (fun c => atom_match ic a c = true) u /\
    k rest caps = Some res.
Proof.
  induction s as [|c s IH]; cbn [star_greedy]; intros H.
  - exists [], []. auto.
  - destruct (atom_match ic a c) eqn:E.
    + destruct (star_greedy ic a s caps k) eqn:E2.
      * inversion H; subst. destruct (IH eq_refl) as (u & rest & -> & F & K).
        exists (c :: u), rest. auto.
      * exists [], (c :: s). auto.
    + exists [], (c :: s). auto.
Qed.

(** A text that ends with a character foreign to [w1] and has no [g0]
    does not start with [w1 ++ [g0]], whatever follows it. *)
Lemma starts_with_ci_blocked (ic : bool) (g0 : code_unit) (v : jsstring) : forall w1 Y,
  v <> [] ->
  Forall (fun c => (canon ic c =? canon ic g0)%N = false) v ->
  (forall x, In x w1 -> (canon ic (last v 0%N) =? canon ic x)%N = false) ->
  starts_with_ci ic (w1 ++ [g0]) (v ++ Y) = None.
Proof.
  induction v as [|c v IH]; intros w1 Y Hv F L; [contradiction|].
  apply Forall_cons_iff in F. destruct F as [Hc F].
  destruct w1 as [|x w1]; cbn [app starts_with_ci]; [now rewrite Hc|].
  destruct (canon ic c =? canon ic x)%N eqn:E; [|reflexivity].
  destruct v as [|d v].
  - cbn [last] in L. rewrite L in E; [discriminate|now left].
  - apply IH; [discriminate|exact F|]. intros y Hy. apply L. now right.
Qed.

Lemma same_ci_Forall (P : code_unit -> bool) (o w : jsstring) :
  (forall c x, to_upper c = to_upper x -> P x = true -> P c = true) ->
  map (canon true) o = map (canon true) w ->
  Forall (fun x => P x = true) w -> Forall (fun c => P c = true) o.
Proof.
  intros HP. revert w. induction o as [|c o IH]; intros [|x w] H F; try discriminate;
    [constructor|].
  cbn [map canon] in H. injection H as H1 H2. inversion F; subst.
  constructor; eauto.
Qed.

(** X19.  When the hero pattern has a match, it is the [rawSection]; it
    starts with [<section] and ends with the first [</section>] after the
    [id] attribute, in any letter case: no other [</section>] occurs in
    it, so a section nested in the hero section ends the match. *)
Theorem hero_match_first_close (s h : jsstring) :
  hero_match s = Some h ->
  rawSection (extractPrimarySection s) = h /\
  exists front closer,
    h = front ++ closer /\
    same_ci (firstn 8 front) (js "<section") /\ same_ci closer (js "</section>") /\
    occurs true (js "</section>") (front ++ removelast closer) = false.
Proof.
  intros Hh. split; [rewrite rawSection_selected; unfold selected; now rewrite Hh|].
  revert Hh.
  unfold hero_match. rewrite RegExp_exec_not_global by reflexivity. cbn [fst].
  destruct (search_from _ _ s 0) as [mr|] eqn:E; [|discriminate].
  cbn [option_map]. intros H. inversion H; subst. clear H.
  destruct (search_from_match _ _ _ _ E) as (a & b & caps & _ & M). clear E.
  unfold match_here in M. cbn [re_source HERO_SECTION_REGEX re_ignoreCase run] in M.
  rewrite run_lit in M.
  destruct (starts_with_ci true (js "<section") (m_text mr ++ b)) as [s1|] eqn:E1; [|discriminate].
  destruct (starts_with_ci_split _ _ _ E1) as (o & Eo & Ho). clear E1.
  apply star_greedy_split in M. destruct M as (A & s2 & -> & FA & M).
  rewrite run_lit in M.
  destruct (starts_with_ci true (js "id=") s2) as [s3|] eqn:E3; [|discriminate].
  destruct (starts_with_ci_split _ _ _ E3) as (i & -> & Hi). clear E3.
  destruct s3 as [|q s4]; [discriminate|].
  destruct (atom_match true (one_of [CChar dqc; ch "'"]) q) eqn:Q; [|discriminate].
  rewrite run_lit in M.
  destruct (starts_with_ci true (js "hero") s4) as [s5|] eqn:E5; [|discriminate].
  destruct (starts_with_ci_split _ _ _ E5) as (hw & -> & Hh). clear E5.
  cbn [cap_get Nat.eqb length] in M.
  replace (S (length (hw ++ s5)) - length (hw ++ s5)) with 1 in M by lia.
  cbn [firstn starts_with_ci] in M.
  destruct s5 as [|q' s6]; [discriminate|].
  destruct (canon true q' =? canon true q)%N eqn:Q'; [|discriminate].
  apply star_lazy_first in M. destruct M as (u & s7 & -> & _ & K & N).
  rewrite run_lit in K.
  destruct (starts_with_ci true (js "</section>") s7) as [s8|] eqn:E8; [|discriminate].
  injection K as K _. subst s8.
  destruct (starts_with_ci_split _ _ _ E8) as (cl & -> & Hc).
  assert (Eh : m_text mr = (o ++ A ++ i ++ [q] ++ hw ++ [q'] ++ u) ++ cl).
  { apply app_inv_tail with (l := b). rewrite Eo, <- !app_assoc. reflexivity. }
  exists (o ++ A ++ i ++ [q] ++ hw ++ [q'] ++ u), cl.
  split; [exact Eh|]. split; [|split; [exact Hc|]].
  - assert (Lo : length o = 8) by (apply (f_equal (@length _)) in Ho; now rewrite !length_map in Ho).
    rewrite firstn_app, Lo, Nat.sub_diag, firstn_0, app_nil_r, <- Lo, firstn_all. exact Ho.
  - assert (Lc : length cl = 10) by (apply same_ci_length in Hc; exact Hc).
    set (pre := o ++ A ++ i ++ [q] ++ hw ++ [q']).
    replace ((o ++ A ++ i ++ [q] ++ hw ++ [q'] ++ u) ++ removelast cl)
      with (pre ++ u ++ removelast cl) by (unfold pre; now rewrite <- !app_assoc).
    assert (Fp : Forall (fun c => not_gt c = true) pre).
    { assert (G : forall c x, to_upper c = to_upper x -> not_gt x = true -> not_gt c = true)
        by (unfold not_gt; intros c x ->; auto).
      unfold pre. repeat (apply Forall_app; split).
      - apply (@same_ci_Forall not_gt _ _ G Ho). repeat constructor.
      - eapply Forall_impl; [|exact FA]. intros c Hc'. cbn in Hc'. unfold not_gt.
        now rewrite orb_false_r in Hc'.
      - apply (@same_ci_Forall not_gt _ _ G Hi). repeat constructor.
      - constructor; [|constructor]. unfold not_gt. cbn in Q. rewrite orb_false_r in Q.
        apply orb_true_iff in Q. destruct Q as [Q|Q]; apply N.eqb_eq in Q; rewrite Q; reflexivity.
      - apply (@same_ci_Forall not_gt _ _ G Hh). repeat constructor.
      - constructor; [|constructor]. unfold not_gt. apply N.eqb_eq in Q'. cbn [canon] in Q'.
        rewrite Q'. cbn in Q. rewrite orb_false_r in Q.
        apply orb_true_iff in Q. destruct Q as [Q|Q]; apply N.eqb_eq in Q; rewrite Q; reflexivity. }
    assert (Lp : forall x, In x (js "</section") ->
                 (to_upper q' =? to_upper x)%N = false).
    { apply N.eqb_eq in Q'. cbn [canon] in Q'. rewrite Q'. cbn in Q. rewrite orb_false_r in Q.
      intros x Hx. apply orb_true_iff in Q.
      destruct Q as [Q|Q]; apply N.eqb_eq in Q; rewrite Q;
        repeat (destruct Hx as [<-|Hx]; [reflexivity|]); destruct Hx. }
    apply occurs_false_app; [|apply occurs_false_app].
    + intros a1 c a2 Ea.
      apply (@starts_with_ci_blocked true (cu ">") (c :: a2) (js "</section") (u ++ removelast cl)).
      * discriminate.
      * rewrite Ea in Fp. apply Forall_app in Fp. destruct Fp as [_ Fp].
        eapply Forall_impl; [|exact Fp]. intros y Hy. unfold not_gt in Hy.
        now apply negb_true_iff in Hy.
      * assert (El : last (c :: a2) 0%N = q').
        { assert (X : pre = (o ++ A ++ i ++ [q] ++ hw) ++ [q'])
            by (unfold pre; now rewrite <- !app_assoc).
          rewrite Ea in X.
          destruct (@exists_last _ (c :: a2)) as (l' & z & El); [discriminate|].
          rewrite El in X |- *. rewrite app_assoc in X. apply app_inj_tail in X.
          destruct X as [_ ->]. apply last_last. }
        rewrite El. exact Lp.
    + intros u1 c u2 Eu. specialize (N u1 c u2 Eu). apply lit_cont_none in N.
      destruct (@exists_last _ cl) as (cl' & z & Ecl); [intros ->; discriminate|].
      rewrite Ecl in N |- *. rewrite removelast_last.
      apply starts_with_ci_cut with (y := [z] ++ b).
      rewrite <- N. f_equal. cbn [app]. now rewrite <- !app_assoc.
    + apply occurs_short. rewrite removelast_length, Lc. cbn. lia.
Qed.

Lemma hero_match_first_close_witness :
  let s := js "<section id='hero'><section>in</section>out</section>" in
  let h := js "<section id='hero'><section>in</section>" in
  hero_match s = Some h /\
  (rawSection (extractPrimarySection s) = h /\
   exists front closer,
     h = front ++ closer /\
     same_ci (firstn 8 front) (js "<section") /\ same_ci closer (js "</section>") /\
     occurs true (js "</section>") (front ++ removelast closer) = false).
Proof.
  cbv zeta. split; [reflexivity|]. apply hero_match_first_close. reflexivity.
Defined.

(** ** The attribute pattern *)

Lemma run_plain (ic : bool) (r : regex) : forall s caps k res,
  plain r = true ->
  run ic r s caps k = Some res ->
  exists w s', s = w ++ s' /\ lang ic r w /\ k s' caps = Some res.
Proof.
  induction r as [|a|r1 IH1 r2 IH2|r1 IH1 r2 IH2|gr a|n r1 IH1|n];
    intros s caps k res P H; cbn [run plain] in *; try discriminate.
  - exists [], s. cbn. auto.
  - destruct s as [|c s]; [discriminate|].
    destruct (atom_match ic a c) eqn:E; [|discriminate].
    exists [c], s. cbn. eauto.
  - apply andb_true_iff in P. destruct P as [P1 P2].
    apply IH1 in H; [|exact P1]. destruct H as (w1 & s1 & -> & L1 & H).
    apply IH2 in H; [|exact P2]. destruct H as (w2 & s2 & -> & L2 & H).
    exists (w1 ++ w2), s2. rewrite app_assoc. cbn. eauto 8.
  - apply andb_true_iff in P. destruct P as [P1 P2].
    destruct (run ic r1 s caps k) eqn:E.
    + inversion H; subst. apply IH1 in E; [|exact P1].
      destruct E as (w & s' & -> & L & E). exists w, s'. cbn. auto.
    + apply IH2 in H; [|exact P2].
      destruct H as (w & s' & -> & L & E'). exists w, s'. cbn. auto.
  - destruct gr.
    + apply star_greedy_split in H. destruct H as (u & rest & -> & F & K).
      exists u, rest. cbn. auto.
    + apply star_lazy_first in H. destruct H as (u & rest & -> & F & K & _).
      exists u, rest. cbn. auto.
  - destruct (cap_get n caps) as [w|].
    + destruct (starts_with_ci ic w s) as [s'|] eqn:E; [|discriminate].
      apply starts_with_ci_app in E. destruct E as (w' & -> & _).
      exists w', s'. cbn. auto.
    + exists [], s. cbn. auto.
Qed.

Lemma class_name_start (c : code_unit) : atom_match false name_start_class c = name_start c.
Proof.
  cbn. unfold name_start, is_lower, is_upper, in_range, ch, cu. cbn.
  now rewrite orb_false_r, !orb_assoc.
Qed.

Lemma class_name_char (c : code_unit) : atom_match false name_char_class c = name_char c.
Proof.
  cbn. unfold name_char, is_lower, is_upper, is_digit, in_range, ch, cu. cbn.
  now rewrite orb_false_r, !orb_assoc.
Qed.

Lemma delimited_lang (o c : code_unit) (w : jsstring) :
  lang false (delimited o c) w -> exists v, w = [o] ++ v ++ [c] /\ lacks c v.
Proof.
  cbn. intros (w1 & w2 & -> & (c1 & -> & M1) & (w3 & w4 & -> & F & (c2 & -> & M2))).
  apply N.eqb_eq in M1, M2. subst. exists w3. split; [reflexivity|].
  eapply Forall_impl; [|exact F]. intros x Hx. cbn in Hx. rewrite orb_false_r in Hx.
  now apply negb_true_iff in Hx.
Qed.

Section GroupShapes.

Variable ic : bool.

Lemma firstn_matched (w s : jsstring) : firstn (length (w ++ s) - length s) (w ++ s) = w.
Proof.
  rewrite length_app, Nat.add_sub, firstn_app, firstn_all, Nat.sub_diag, firstn_0.
  apply app_nil_r.
Qed.

Lemma seq_plain_shape (M R' : regex) (s : jsstring) (caps : captures) (k : cont) res :
  plain M = true ->
  run ic (Seq M R') s caps k = Some res ->
  exists w s1, s = w ++ s1 /\ lang ic M w /\ run ic R' s1 caps k = Some res.
Proof. intros P H. cbn [run] in H. now apply run_plain in H. Qed.

Lemma group_seq_shape (n : nat) (K R' : regex) (s : jsstring) (caps : captures) (k : cont) res :
  plain K = true ->
  run ic (Seq (Group n K) R') s caps k = Some res ->
  exists w s1, s = w ++ s1 /\ lang ic K w /\ run ic R' s1 ((n, w) :: caps) k = Some res.
Proof.
  intros P H. cbn [run] in H. apply run_plain in H; [|exact P].
  destruct H as (w & s1 & -> & L & H). rewrite firstn_matched in H. eauto.
Qed.

Lemma group_end_shape (n : nat) (V : regex) (s rest : jsstring) (caps caps' : captures) :
  plain V = true ->
  run ic (Group n V) s caps (fun s' c' => Some (s', c')) = Some (rest, caps') ->
  exists w, s = w ++ rest /\ lang ic V w /\ caps' = (n, w) :: caps.
Proof.
  intros P H. cbn [run] in H. apply run_plain in H; [|exact P].
  destruct H as (w & s1 & -> & L & H). rewrite firstn_matched in H.
  inversion H; subst. eauto.
Qed.

End GroupShapes.

Lemma attribute_match_shape (s rest : jsstring) (caps : captures) :
  match_here false (re_source attribute_regex) s = Some (rest, caps) ->
  exists key sp1 sp2 f v,
    s = key ++ sp1 ++ [eq_sign] ++ sp2 ++ raw_value f v ++ rest /\
    attribute_name key = true /\ all_space sp1 /\ all_space sp2 /\
    lacks (form_close f) v /\
    caps = [(2, raw_value f v); (1, key)].
Proof.
  unfold match_here. cbn [re_source attribute_regex g]. intros H.
  apply group_seq_shape in H; [|reflexivity]. destruct H as (key & s1 & -> & Lk & H).
  apply seq_plain_shape in H; [|reflexivity]. destruct H as (sp1 & s2 & -> & L1 & H).
  apply seq_plain_shape in H; [|reflexivity]. destruct H as (e & s3 & -> & Le & H).
  apply seq_plain_shape in H; [|reflexivity]. destruct H as (sp2 & s4 & -> & L2 & H).
  apply group_end_shape in H; [|reflexivity]. destruct H as (raw & -> & Lv & ->).
  destruct Le as (c & -> & Ec). apply N.eqb_eq in Ec. cbn [canon] in Ec. subst c.
  assert (V : exists f v, raw = raw_value f v /\ lacks (form_close f) v).
  { destruct Lv as [Lv|[Lv|Lv]].
    - apply (@delimited_lang (cu "{") (cu "}")) in Lv. destruct Lv as (v & -> & Fv).
      exists Braced, v. auto.
    - apply (@delimited_lang dqc dqc) in Lv. destruct Lv as (v & -> & Fv).
      exists DoubleQuoted, v. auto.
    - apply (@delimited_lang (cu "'") (cu "'")) in Lv. destruct Lv as (v & -> & Fv).
      exists SingleQuoted, v. auto. }
  destruct V as (f & v & -> & Fv).
  exists key, sp1, sp2, f, v. split; [reflexivity|]. split; [|split; [|split; [|split]]]; auto.
  - cbn [lang] in Lk. destruct Lk as (w1 & w2 & -> & (c & -> & Mc) & Fw).
    cbn [app attribute_name]. fold name_start_class in Mc. rewrite class_name_start in Mc.
    rewrite Mc. cbn [andb]. apply forallb_forall. rewrite Forall_forall in Fw.
    intros x Hx. specialize (Fw x Hx). fold name_char_class in Fw.
    now rewrite class_name_char in Fw.
  - cbn [lang] in L1. eapply Forall_impl; [|exact L1]. intros x Hx.
    exact (eq_trans (eq_sym (class_space_cs x)) Hx).
  - cbn [lang] in L2. eapply Forall_impl; [|exact L2]. intros x Hx.
    exact (eq_trans (eq_sym (class_space_cs x)) Hx).
Qed.

Lemma unwrap_raw_value (f : value_form) (v : jsstring) :
  unwrapAttributeValue (raw_value f v) = match f with Braced => trim v | _ => v end.
Proof.
  destruct (unwrap_delimited v) as (H1 & H2 & H3). destruct f; assumption.
Qed.

Section ExecLoop.

Variable r : regex.

Lemma exec_loop_match (w rest : jsstring) (caps : captures) :
  w <> [] ->
  match_here false r (w ++ rest) = Some (rest, caps) ->
  exec_loop false r (w ++ rest) 0 = (w, caps) :: exec_loop false r rest 0.
Proof.
  intros Hw H. destruct w as [|c w]; [contradiction|].
  change ((c :: w) ++ rest) with (c :: w ++ rest) in *.
  cbn [exec_loop]. rewrite H.
  change (c :: w ++ rest) with ((c :: w) ++ rest). unfold matched_len.
  rewrite firstn_matched, length_app, Nat.add_sub. cbn [length pred app]. f_equal.
  clear. induction w as [|d w IH]; [reflexivity|]. exact IH.
Qed.

Lemma exec_loop_miss (c : code_unit) (s : jsstring) :
  match_here false r (c :: s) = None -> exec_loop false r (c :: s) 0 = exec_loop false r s 0.
Proof. intros H. cbn [exec_loop]. now rewrite H. Qed.

Lemma exec_loop_quiet (s : jsstring) : quiet false r s -> exec_loop false r s 0 = [].
Proof.
  induction s as [|c s IH]; [reflexivity|]. cbn [quiet]. intros [H Q].
  rewrite exec_loop_miss by exact H. auto.
Qed.

Lemma exec_loop_sound (Inv : jsstring -> Prop) (P : jsstring -> captures -> Prop) :
  (forall c s, Inv (c :: s) -> Inv s) ->
  (forall s rest caps, Inv s -> match_here false r s = Some (rest, caps) ->
                       P (firstn (matched_len s rest) s) caps) ->
  forall s n, Inv s -> Forall (fun m => P (fst m) (snd m)) (exec_loop false r s n).
Proof.
  intros Ht Hm. induction s as [|c s IH]; intros n I.
  - destruct n; constructor.
  - destruct n as [|n]; cbn [exec_loop]; [|eauto].
    destruct (match_here false r (c :: s)) as [[rest caps]|] eqn:E; [|eauto].
    constructor; [|eauto]. cbn [fst snd]. eauto.
Qed.

End ExecLoop.

Lemma attribute_matches_sound (Q : code_unit -> Prop) (s : jsstring) :
  Forall Q s ->
  Forall (fun kv => attribute_name (fst kv) = true /\ Forall Q (fst kv) /\
                    exists f v, snd kv = raw_value f v /\ lacks (form_close f) v /\ Forall Q v)
    (attribute_matches s).
Proof.
  intros F. unfold attribute_matches. apply Forall_map.
  apply (@exec_loop_sound (re_source attribute_regex) (Forall Q)
           (fun _ caps => attribute_name (group 1 caps) = true /\ Forall Q (group 1 caps) /\
              exists f v, group 2 caps = raw_value f v /\ lacks (form_close f) v /\ Forall Q v)).
  - intros c s' H. now inversion H.
  - intros s' rest caps I H. apply attribute_match_shape in H.
    destruct H as (key & sp1 & sp2 & f & v & -> & Hk & _ & _ & Fv & ->).
    cbn [group cap_get Nat.eqb]. split; [exact Hk|].
    rewrite !Forall_app in I. destruct I as (Ik & _ & _ & _ & Iv & _).
    split; [exact Ik|]. exists f, v. split; [reflexivity|]. split; [exact Fv|].
    unfold raw_value in Iv. rewrite !Forall_app in Iv. tauto.
  - exact F.
Qed.

Lemma obj_put_Forall (P : jsstring * jsstring -> Prop) (k v : jsstring) (o : jsobject) :
  P (k, v) -> Forall P o -> Forall P (obj_put k v o).
Proof.
  intros Hkv. induction 1 as [|[k0 v0] o H0 F IH]; cbn [obj_put]; [repeat constructor; auto|].
  destruct (jsstring_eqb k0 k) eqn:E.
  - apply jsstring_eqb_eq in E. subst k0. constructor; auto.
  - constructor; auto.
Qed.

Lemma obj_set_Forall (P : jsstring * jsstring -> Prop) (k v : jsstring) (o : jsobject) :
  P (k, v) -> Forall P o -> Forall P (obj_set k v o).
Proof.
  intros Hkv F. unfold obj_set. destruct (jsstring_eqb k (js "__proto__")); [exact F|].
  now apply obj_put_Forall.
Qed.

Lemma parseAttributes_sound (Q : code_unit -> Prop) (s : jsstring) :
  Forall Q s ->
  Forall (fun kv => attribute_name (fst kv) = true /\ Forall Q (fst kv) /\ Forall Q (snd kv))
    (parseAttributes s).
Proof.
  intros F. apply attribute_matches_sound in F. unfold parseAttributes.
  set (P := fun kv : jsstring * jsstring => attribute_name (fst kv) = true /\ Forall Q (fst kv) /\ Forall Q (snd kv)).
  assert (G : forall l o, Forall P o ->
     Forall (fun kv => attribute_name (fst kv) = true /\ Forall Q (fst kv) /\
                    exists f v, snd kv = raw_value f v /\ lacks (form_close f) v /\ Forall Q v) l ->
     Forall P (fold_left (fun attrs kv => obj_set (fst kv) (unwrapAttributeValue (snd kv)) attrs) l o)).
  { induction l as [|[k raw] l IH]; intros o Fo Fl; [exact Fo|].
    inversion Fl as [|? ? (Hk & Qk & f & v & Er & Fv & Qv) Fl']; subst. cbn [fold_left fst snd] in *.
    apply IH; [|exact Fl']. apply obj_set_Forall; [|exact Fo].
    unfold P. cbn [fst snd]. split; [exact Hk|]. split; [exact Qk|].
    rewrite Er, unwrap_raw_value. destruct f; auto. now apply trim_Forall. }
  apply G; [constructor|exact F].
Qed.

(** X20.  Every key of the object [parseAttributes] returns is an
    attribute name: a letter, [_] or [:], followed by letters, digits,
    [_], [:], [.] and [-]. *)
Theorem parseAttributes_keys (source : jsstring) :
  Forall (fun kv => attribute_name (fst kv) = true) (parseAttributes source).
Proof.
  pose proof (@parseAttributes_sound (fun _ => True) source) as H.
  eapply Forall_impl; [|apply H; apply Forall_forall; auto]. cbv beta. tauto.
Qed.

(** *** Attributes the pattern is sure to see *)

Section Hits.

Variable ic : bool.

Lemma hits_atom (a : atom) (c : code_unit) (s' : jsstring) (caps : captures) :
  atom_match ic a c = true -> hits ic (Atom a) [c] s' caps caps.
Proof. intros M k res K. cbn [app run]. now rewrite M. Qed.

Lemma hits_seq (r1 r2 : regex) (w1 w2 s' : jsstring) (caps caps1 caps2 : captures) :
  hits ic r1 w1 (w2 ++ s') caps caps1 -> hits ic r2 w2 s' caps1 caps2 ->
  hits ic (Seq r1 r2) (w1 ++ w2) s' caps caps2.
Proof.
  intros H1 H2 k res K. cbn [run]. rewrite <- app_assoc. apply H1. now apply H2.
Qed.

Lemma hits_star (a : atom) (u s' : jsstring) (caps : captures) :
  Forall (fun c => atom_match ic a c = true) u -> stops ic a s' ->
  hits ic (Star true a) u s' caps caps.
Proof. intros F S k res K. cbn [run]. now apply star_greedy_take. Qed.

Lemma hits_group (n : nat) (r : regex) (w s' : jsstring) (caps caps1 : captures) :
  hits ic r w s' caps caps1 -> hits ic (Group n r) w s' caps ((n, w) :: caps1).
Proof.
  intros H k res K. cbn [run]. apply H. now rewrite firstn_matched.
Qed.

Lemma hits_alt_l (r1 r2 : regex) (w s' : jsstring) (caps caps' : captures) :
  hits ic r1 w s' caps caps' -> hits ic (Alt r1 r2) w s' caps caps'.
Proof. intros H k res K. cbn [run]. now rewrite (H k res K). Qed.

Lemma hits_alt_r (r1 r2 : regex) (w s' : jsstring) (caps caps' : captures) :
  (forall k, run ic r1 (w ++ s') caps k = None) ->
  hits ic r2 w s' caps caps' -> hits ic (Alt r1 r2) w s' caps caps'.
Proof. intros N H k res K. cbn [run]. rewrite N. now apply H. Qed.

Lemma hits_match_here (r : regex) (w s' : jsstring) (caps' : captures) :
  hits ic r w s' [] caps' -> match_here ic r (w ++ s') = Some (s', caps').
Proof. intros H. now apply H. Qed.

End Hits.

Lemma space_not_name_char (c : code_unit) : is_space c = true -> name_char c = false.
Proof.
  intros H. destruct (is_space_cases c H) as [L|L];
    unfold name_char, is_lower, is_upper, is_digit, cu; cbn;
    repeat match goal with
    | |- context [(?a <=? ?b)%N] => destruct (N.leb_spec a b)
    | |- context [(?a =? ?b)%N] => destruct (N.eqb_spec a b)
    end; cbn; try reflexivity; lia.
Qed.

Lemma attribute_name_cases (key : jsstring) :
  attribute_name key = true ->
  exists c kt, key = c :: kt /\ atom_match false name_start_class c = true /\
    Forall (fun x => atom_match false name_char_class x = true) kt.
Proof.
  destruct key as [|c kt]; [discriminate|]. cbn [attribute_name].
  intros H. apply andb_true_iff in H. destruct H as [H1 H2].
  exists c, kt. split; [reflexivity|]. rewrite class_name_start. split; [exact H1|].
  apply Forall_forall. intros x Hx. rewrite class_name_char.
  rewrite forallb_forall in H2. auto.
Qed.

Lemma stops_spaces_then (a : atom) (sp : jsstring) (c : code_unit) (rest : jsstring) :
  (forall x, is_space x = true -> atom_match false a x = false) ->
  atom_match false a c = false -> all_space sp ->
  stops false a (sp ++ c :: rest).
Proof.
  intros Hs Hc F. destruct F as [|x sp Hx F]; cbn [app stops]; auto.
Qed.

Lemma delimited_hits (o c : code_unit) (v s' : jsstring) (caps : captures) :
  lacks c v -> hits false (delimited o c) ([o] ++ v ++ [c]) s' caps caps.
Proof.
  intros F. unfold delimited.
  apply hits_seq with (caps1 := caps); [apply hits_atom; cbn; apply N.eqb_refl|].
  apply hits_seq with (caps1 := caps); [|apply hits_atom; cbn; apply N.eqb_refl].
  apply hits_star.
  - eapply Forall_impl; [|exact F]. intros x Hx. cbn. now rewrite Hx.
  - cbn. now rewrite N.eqb_refl.
Qed.

Lemma delimited_miss (o c x : code_unit) (s : jsstring) (caps : captures) (k : cont) :
  (x =? o)%N = false -> run false (delimited o c) (x :: s) caps k = None.
Proof. intros H. cbn. now rewrite H. Qed.

Lemma attribute_hit (key sp1 sp2 : jsstring) (f : value_form) (v rest : jsstring) :
  attribute_name key = true -> all_space sp1 -> all_space sp2 -> lacks (form_close f) v ->
  match_here false (re_source attribute_regex)
    (key ++ sp1 ++ [eq_sign] ++ sp2 ++ raw_value f v ++ rest)
  = Some (rest, [(2, raw_value f v); (1, key)]).
Proof.
  intros Hk F1 F2 Fv. apply attribute_name_cases in Hk.
  destruct Hk as (c0 & kt & -> & H0 & Ht).
  replace ((c0 :: kt) ++ sp1 ++ [eq_sign] ++ sp2 ++ raw_value f v ++ rest)
    with (((c0 :: kt) ++ sp1 ++ [eq_sign] ++ sp2 ++ raw_value f v) ++ rest)
    by (now rewrite <- !app_assoc).
  apply hits_match_here. cbn [re_source attribute_regex g].
  apply hits_seq with (caps1 := [(1, c0 :: kt)]).
  { apply hits_group. change (c0 :: kt) with ([c0] ++ kt).
    apply hits_seq with (caps1 := []); [now apply hits_atom|].
    apply hits_star; [exact Ht|].
    rewrite <- app_assoc. apply stops_spaces_then; [|reflexivity|exact F1].
    intros x Hx. fold name_char_class. rewrite class_name_char. now apply space_not_name_char. }
  apply hits_seq with (caps1 := [(1, c0 :: kt)]).
  { apply hits_star.
    - eapply Forall_impl; [|exact F1]. intros x Hx. now rewrite class_space_cs.
    - reflexivity. }
  apply hits_seq with (caps1 := [(1, c0 :: kt)]); [now apply hits_atom|].
  apply hits_seq with (caps1 := [(1, c0 :: kt)]).
  { apply hits_star.
    - eapply Forall_impl; [|exact F2]. intros x Hx. now rewrite class_space_cs.
    - unfold raw_value. cbn [app stops]. rewrite class_space_cs. apply form_open_not_space. }
  apply hits_group. unfold raw_value. destruct f.
  - apply hits_alt_r; [intros k; now apply delimited_miss|].
    apply hits_alt_l. now apply (@delimited_hits dqc dqc).
  - apply hits_alt_r; [intros k; now apply delimited_miss|].
    apply hits_alt_r; [intros k; now apply (@delimited_miss dqc dqc)|].
    now apply (@delimited_hits (cu "'") (cu "'")).
  - apply hits_alt_l. now apply (@delimited_hits (cu "{") (cu "}")).
Qed.

Lemma space_not_name_start (c : code_unit) :
  is_space c = true -> atom_match false name_start_class c = false.
Proof.
  intros H. rewrite class_name_start. apply space_not_name_char in H.
  unfold name_char in H. unfold name_start. rewrite !orb_false_iff in H.
  destruct H as [[[[[[-> ->] _] ->] ->] _] _]. reflexivity.
Qed.

Lemma attribute_miss (c : code_unit) (s : jsstring) :
  atom_match false name_start_class c = false ->
  match_here false (re_source attribute_regex) (c :: s) = None.
Proof.
  intros H. unfold match_here. cbn [re_source attribute_regex g run].
  fold name_start_class. now rewrite H.
Qed.

Lemma exec_loop_spaces (sp s : jsstring) :
  all_space sp ->
  exec_loop false (re_source attribute_regex) (sp ++ s) 0 =
  exec_loop false (re_source attribute_regex) s 0.
Proof.
  induction 1 as [|c sp Hc F IH]; [reflexivity|]. cbn [app].
  rewrite exec_loop_miss; [exact IH|]. apply attribute_miss. now apply space_not_name_start.
Qed.

Lemma attribute_matches_bare (s : jsstring) : lacks eq_sign s -> attribute_matches s = [].
Proof.
  intros F. unfold attribute_matches. rewrite exec_loop_quiet; [reflexivity|].
  apply quiet_needs with (q := is_eq_sign); [reflexivity|exact F].
Qed.

(** X21.  An attribute written as a name, [=] with optional white space
    around it, and a value in double quotes, single quotes or braces that
    has no closing delimiter inside, with white space before and after,
    parses to that one name with the value between the delimiters
    (trimmed for braces). *)
Theorem parseAttributes_single (before key sp1 sp2 : jsstring) (f : value_form)
    (v after : jsstring) :
  all_space before -> attribute_name key = true -> key <> js "__proto__" ->
  all_space sp1 -> all_space sp2 -> lacks (form_close f) v -> all_space after ->
  parseAttributes (before ++ key ++ sp1 ++ [eq_sign] ++ sp2 ++ raw_value f v ++ after) =
  [(key, match f with Braced => trim v | _ => v end)].
Proof.
  intros Fb Hk Hp F1 F2 Fv Fa. unfold parseAttributes, attribute_matches.
  rewrite exec_loop_spaces by exact Fb.
  replace (key ++ sp1 ++ [eq_sign] ++ sp2 ++ raw_value f v ++ after)
    with ((key ++ sp1 ++ [eq_sign] ++ sp2 ++ raw_value f v) ++ after)
    by (now rewrite <- !app_assoc).
  rewrite exec_loop_match with (caps := [(2, raw_value f v); (1, key)]).
  - rewrite <- (app_nil_r after), exec_loop_spaces by exact Fa.
    cbn [exec_loop map fold_left fst snd group cap_get Nat.eqb].
    rewrite unwrap_raw_value. unfold obj_set.
    rewrite jsstring_eqb_neq by exact Hp. reflexivity.
  - destruct key; [discriminate|discriminate].
  - rewrite <- !app_assoc. now apply attribute_hit.
Qed.

Lemma parseAttributes_single_witness :
  (all_space (js " ") /\ attribute_name (js "data-id") = true /\
   js "data-id" <> js "__proto__" /\ all_space [] /\ all_space (js "  ") /\
   lacks (form_close Braced) (js " a > b ") /\ all_space (js " ")) /\
  parseAttributes (js " data-id=  { a > b } ") = [(js "data-id", js "a > b")].
Proof.
  split; [repeat split; try discriminate; repeat constructor|].
  apply (@parseAttributes_single (js " ") (js "data-id") [] (js "  ") Braced (js " a > b ")
           (js " ")); try discriminate; try reflexivity; repeat constructor.
Defined.

Lemma fold_delete_nil (l : list jsstring) :
  fold_left (fun o key => obj_delete key o) l [] = [].
Proof. induction l; auto. Qed.

Lemma attribute_matches_undelimited (s : jsstring) :
  Forall (fun c => is_value_open c = false) s -> attribute_matches s = [].
Proof.
  intros F. unfold attribute_matches. rewrite exec_loop_quiet; [reflexivity|].
  apply quiet_needs with (q := is_value_open); [reflexivity|exact F].
Qed.

Lemma buildTagAttributes_nothing (attrs baseClass : jsstring) (stripAttrs : list jsstring)
    (keepOnly : option (list jsstring)) :
  attribute_matches attrs = [] ->
  buildTagAttributes attrs baseClass stripAttrs keepOnly = js " class=" ++ dq ++ baseClass ++ dq.
Proof.
  intros E. unfold buildTagAttributes, parseAttributes.
  rewrite E. cbn [fold_left]. rewrite fold_delete_nil.
  destruct keepOnly as [[|k0 keep]|]; destruct baseClass; cbn; now rewrite ?app_nil_r.
Qed.

(** X22.  For an attribute text without [=], or without any of the three
    opening delimiters of a value, [buildTagAttributes] returns the class
    attribute of the base class and nothing else: attributes written
    without a value, or with a value that is not delimited, are dropped. *)
Theorem buildTagAttributes_bare (attrs baseClass : jsstring) (stripAttrs : list jsstring)
    (keepOnly : option (list jsstring)) :
  lacks eq_sign attrs \/ Forall (fun c => is_value_open c = false) attrs ->
  buildTagAttributes attrs baseClass stripAttrs keepOnly = js " class=" ++ dq ++ baseClass ++ dq.
Proof.
  intros [F|F]; apply buildTagAttributes_nothing.
  - now apply attribute_matches_bare.
  - now apply attribute_matches_undelimited.
Qed.

Lemma buildTagAttributes_bare_witness :
  (lacks eq_sign (js " disabled tabindex=0") \/
   Forall (fun c => is_value_open c = false) (js " disabled tabindex=0")) /\
  buildTagAttributes (js " disabled tabindex=0") (js "arena-btn") [js "variant"] None =
  js " class=" ++ dq ++ js "arena-btn" ++ dq.
Proof.
  assert (F : Forall (fun c => is_value_open c = false) (js " disabled tabindex=0"))
    by (repeat constructor).
  split; [right; exact F|apply buildTagAttributes_bare; right; exact F].
Defined.

(** ** The attribute object *)

Lemma obj_get_delete (k k' : jsstring) (o : jsobject) :
  obj_get k (obj_delete k' o) = if jsstring_eqb k' k then None else obj_get k o.
Proof.
  unfold obj_delete. induction o as [|[k0 v0] o IH]; cbn [filter obj_get fst].
  - now destruct (jsstring_eqb k' k).
  - destruct (jsstring_eqb k0 k') eqn:E; cbn [negb].
    + apply jsstring_eqb_eq in E. subst k0. rewrite IH.
      destruct (jsstring_eqb k' k); reflexivity.
    + cbn [obj_get]. rewrite IH. destruct (jsstring_eqb k0 k) eqn:E2; [|reflexivity].
      apply jsstring_eqb_eq in E2. subst k0.
      destruct (jsstring_eqb k' k) eqn:E3; [|reflexivity].
      apply jsstring_eqb_eq in E3. subst k'. rewrite jsstring_eqb_refl in E. discriminate.
Qed.

Lemma includes_cons (x k : jsstring) (l : list jsstring) :
  includes (x :: l) k = jsstring_eqb k x || includes l k.
Proof. reflexivity. Qed.

Lemma jsstring_eqb_sym (a b : jsstring) : jsstring_eqb a b = jsstring_eqb b a.
Proof.
  destruct (jsstring_eqb a b) eqn:E.
  - apply jsstring_eqb_eq in E. subst. now rewrite jsstring_eqb_refl.
  - destruct (jsstring_eqb b a) eqn:E'; [|reflexivity].
    apply jsstring_eqb_eq in E'. subst. rewrite jsstring_eqb_refl in E. discriminate.
Qed.

Lemma obj_get_fold_delete (k : jsstring) (l : list jsstring) : forall o,
  obj_get k (fold_left (fun o key => obj_delete key o) l o) =
  if includes l k then None else obj_get k o.
Proof.
  induction l as [|x l IH]; intros o; [reflexivity|].
  cbn [fold_left]. rewrite IH, includes_cons, obj_get_delete, (jsstring_eqb_sym k x).
  destruct (jsstring_eqb x k), (includes l k); reflexivity.
Qed.

Lemma obj_get_fold_keep (k : jsstring) (keep keys : list jsstring) : forall o,
  obj_get k (fold_left (fun o key => if negb (includes keep key) then obj_delete key o else o)
               keys o) =
  if includes keys k && negb (includes keep k) then None else obj_get k o.
Proof.
  induction keys as [|x keys IH]; intros o; [reflexivity|].
  cbn [fold_left]. rewrite IH, includes_cons.
  destruct (jsstring_eqb k x) eqn:E.
  - apply jsstring_eqb_eq in E. subst x. cbn [orb andb].
    destruct (includes keep k); cbn [negb]; [now rewrite andb_false_r|].
    rewrite obj_get_delete, jsstring_eqb_refl. now destruct (includes keys k).
  - cbn [orb]. destruct (includes keys k && negb (includes keep k)); [reflexivity|].
    destruct (negb (includes keep x)); [|reflexivity].
    now rewrite obj_get_delete, (jsstring_eqb_sym x k), E.
Qed.

Lemma obj_get_none (k : jsstring) (o : jsobject) :
  includes (map fst o) k = false -> obj_get k o = None.
Proof.
  induction o as [|[k0 v0] o IH]; [reflexivity|]. cbn [map fst]. rewrite includes_cons.
  intros H. apply orb_false_iff in H. destruct H as [H1 H2]. cbn [obj_get].
  rewrite jsstring_eqb_sym, H1. auto.
Qed.

Lemma obj_get_In (k v : jsstring) (o : jsobject) : obj_get k o = Some v -> In (k, v) o.
Proof.
  induction o as [|[k0 v0] o IH]; [discriminate|]. cbn [obj_get].
  destruct (jsstring_eqb k0 k) eqn:E.
  - apply jsstring_eqb_eq in E. subst k0. intros H. inversion H. now left.
  - intros H. right. auto.
Qed.

Lemma obj_delete_Forall (P : jsstring * jsstring -> Prop) (k : jsstring) (o : jsobject) :
  Forall P o -> Forall P (obj_delete k o).
Proof.
  unfold obj_delete. induction 1 as [|kv o H F IH]; cbn [filter]; [constructor|].
  destruct (negb _); [constructor|]; auto.
Qed.

Lemma obj_delete_keys (k : jsstring) (o : jsobject) (x : jsstring) :
  In x (map fst (obj_delete k o)) -> In x (map fst o).
Proof.
  unfold obj_delete. induction o as [|kv o IH]; cbn [filter map]; [auto|].
  destruct (negb _); cbn [map In]; tauto.
Qed.

Lemma obj_delete_NoDup (k : jsstring) (o : jsobject) :
  NoDup (map fst o) -> NoDup (map fst (obj_delete k o)).
Proof.
  induction o as [|kv o IH]; cbn [map]; intros H; [constructor|].
  inversion H; subst. unfold obj_delete. cbn [filter].
  destruct (negb _); cbn [map]; [|now apply IH].
  constructor; [|now apply IH]. intros I. apply obj_delete_keys in I. contradiction.
Qed.

Lemma obj_put_keys (k v : jsstring) (o : jsobject) (x : jsstring) :
  In x (map fst (obj_put k v o)) -> x = k \/ In x (map fst o).
Proof.
  induction o as [|[k0 v0] o IH]; cbn [obj_put map fst In]; [intuition|].
  destruct (jsstring_eqb k0 k); cbn [map fst In]; intuition.
Qed.

Lemma obj_put_NoDup (k v : jsstring) (o : jsobject) :
  NoDup (map fst o) -> NoDup (map fst (obj_put k v o)).
Proof.
  induction o as [|[k0 v0] o IH]; cbn [obj_put map fst]; intros H.
  - repeat constructor. auto.
  - inversion H; subst. destruct (jsstring_eqb k0 k) eqn:E; cbn [map fst].
    + constructor; auto.
    + constructor; [|auto]. intros I. apply obj_put_keys in I. destruct I as [->|I]; [|auto].
      rewrite jsstring_eqb_refl in E. discriminate.
Qed.

Lemma parseAttributes_NoDup (s : jsstring) : NoDup (map fst (parseAttributes s)).
Proof.
  unfold parseAttributes.
  assert (G : forall l o, NoDup (map fst o) ->
    NoDup (map fst (fold_left (fun attrs kv => obj_set (fst kv) (unwrapAttributeValue (snd kv)) attrs) l o))).
  { induction l as [|kv l IH]; intros o H; [exact H|]. cbn [fold_left]. apply IH.
    unfold obj_set. destruct (jsstring_eqb _ _); [exact H|]. now apply obj_put_NoDup. }
  apply G. constructor.
Qed.

Lemma fold_invariant (A : Type) (I : jsobject -> Prop) (step : jsobject -> A -> jsobject)
    (l : list A) : forall o,
  (forall o x, I o -> I (step o x)) -> I o -> I (fold_left step l o).
Proof. induction l as [|x l IH]; intros o H Ho; cbn [fold_left]; auto. Qed.

Lemma join_Forall (Q : code_unit -> Prop) (sep : jsstring) (l : list jsstring) :
  Forall Q sep -> Forall (Forall Q) l -> Forall Q (join sep l).
Proof.
  intros Hs. induction 1 as [|x l Hx F IH]; [constructor|].
  destruct l as [|y l]; [exact Hx|].
  change (join sep (x :: y :: l)) with (x ++ sep ++ join sep (y :: l)).
  rewrite !Forall_app. auto.
Qed.

Lemma splitClasses_Forall (Q : code_unit -> Prop) (value : option jsstring) :
  match value with Some v => Forall Q v | None => True end ->
  Forall (Forall Q) (splitClasses value).
Proof.
  destruct value as [v|]; [|constructor]. intros F. unfold splitClasses.
  destruct (truthy v); cbn [negb]; [|constructor]. rewrite class_noise_replaced.
  set (w := flat_map _ v).
  assert (Fw : Forall (fun c => Q c \/ is_space c = true) w).
  { subst w. induction F as [|c v Hc F IH]; [constructor|]. cbn [flat_map].
    apply Forall_app. split; [|exact IH].
    destruct (is_class_noise c);
      (constructor; [|constructor]); [right; reflexivity|left; exact Hc]. }
  assert (P : Forall (Forall (fun c => (Q c \/ is_space c = true) /\
                                       atom_match false space c = false))
                (split false spaces w)).
  { destruct w as [|c w]; [repeat constructor|].
    rewrite split_nonempty. apply split_go_pieces; [exact Fw|constructor]. }
  apply Forall_forall. intros t Ht. apply filter_In in Ht. destruct Ht as [Ht _].
  rewrite Forall_forall in P. specialize (P t Ht).
  eapply Forall_impl; [|exact P]. intros c [[H|H] S]; [exact H|].
  rewrite class_space_cs in S. congruence.
Qed.

(** What [buildTagAttributes] returns: the class attribute made of the
    base class and the class tokens, then the attributes that are left,
    values escaped. *)

Lemma buildTagAttributes_shape (Q : code_unit -> Prop) (attrs baseClass : jsstring)
    (stripAttrs : list jsstring) (keepOnly : option (list jsstring)) :
  Forall Q attrs ->
  exists tokens final,
    buildTagAttributes attrs baseClass stripAttrs keepOnly =
      js " class=" ++ dq ++ join (js " ") (filter truthy (baseClass :: tokens)) ++ dq ++
      (if truthy (join (js " ") (map render_attribute final))
       then js " " ++ join (js " ") (map render_attribute final) else []) /\
    Forall (fun t => Forall Q t /\ Forall (fun c => class_char c = true) t) tokens /\
    Forall (entry_ok Q) final /\ NoDup (map fst final) /\
    forall k, k <> js "class" -> k <> js "className" ->
      obj_get k final =
      if includes stripAttrs k || keep_drops keepOnly k then None
      else obj_get k (parseAttributes attrs).
Proof.
  intros F. unfold buildTagAttributes.
  set (p0 := parseAttributes attrs).
  set (p1 := fold_left (fun o key => obj_delete key o) stripAttrs p0).
  set (p2 := match keepOnly with
             | Some ((_ :: _) as keep) =>
                 fold_left (fun o key => if negb (includes keep key) then obj_delete key o else o)
                   (map fst p1) p1
             | _ => p1
             end).
  assert (I0 : Forall (entry_ok Q) p0) by (apply parseAttributes_sound; exact F).
  assert (N0 : NoDup (map fst p0)) by apply parseAttributes_NoDup.
  assert (I1 : Forall (entry_ok Q) p1).
  { apply fold_invariant; [|exact I0]. intros o x. apply obj_delete_Forall. }
  assert (N1 : NoDup (map fst p1)).
  { apply (@fold_invariant _ (fun o => NoDup (map fst o))); [|exact N0].
    intros o x. apply obj_delete_NoDup. }
  assert (I2 : Forall (entry_ok Q) p2).
  { subst p2. destruct keepOnly as [[|k0 keep]|]; try exact I1.
    apply fold_invariant; [|exact I1]. intros o x H. destruct (negb _); [|exact H].
    now apply obj_delete_Forall. }
  assert (N2 : NoDup (map fst p2)).
  { subst p2. destruct keepOnly as [[|k0 keep]|]; try exact N1.
    apply (@fold_invariant _ (fun o => NoDup (map fst o))); [|exact N1].
    intros o x H. destruct (negb _); [|exact H]. now apply obj_delete_NoDup. }
  assert (G2 : forall k, obj_get k p2 =
                 if includes stripAttrs k || keep_drops keepOnly k then None else obj_get k p0).
  { intros k. subst p2. 
    assert (G1 : obj_get k p1 = if includes stripAttrs k then None else obj_get k p0)
      by apply obj_get_fold_delete.
    destruct keepOnly as [[|k0 keep]|]; cbn [keep_drops]; rewrite ?orb_false_r; try exact G1.
    rewrite obj_get_fold_keep.
    destruct (includes (map fst p1) k) eqn:Ek; cbn [andb].
    - rewrite G1. destruct (includes stripAttrs k), (negb (includes (k0 :: keep) k)); reflexivity.
    - rewrite (obj_get_none _ _ Ek) in G1 |- *.
      destruct (includes stripAttrs k); cbn [orb]; [reflexivity|].
      rewrite <- G1. now destruct (negb _). }
  clearbody p2. clear I0 N0 I1 N1 p1.
  assert (T : forall key o, Forall (entry_ok Q) o ->
              Forall (fun t => Forall Q t /\ Forall (fun c => class_char c = true) t)
                (splitClasses (obj_get key o))).
  { intros key o Io.
    assert (A : Forall (Forall Q) (splitClasses (obj_get key o))).
    { apply splitClasses_Forall. destruct (obj_get key o) as [v|] eqn:E; [|exact I].
      apply obj_get_In in E. rewrite Forall_forall in Io. now destruct (Io _ E) as (_ & _ & H). }
    pose proof (splitClasses_clean (obj_get key o)) as B.
    rewrite Forall_forall in *. intros t Ht. split; [now apply A|]. now apply B. }
  destruct (obj_truthy (js "className") p2) eqn:C1.
  - destruct (obj_truthy (js "class") (obj_delete (js "className") p2)) eqn:C2.
    + exists (splitClasses (obj_get (js "className") p2) ++
              splitClasses (obj_get (js "class") (obj_delete (js "className") p2))),
             (obj_delete (js "class") (obj_delete (js "className") p2)).
      split; [cbn [app]; reflexivity|].
      split; [apply Forall_app; split; apply T; auto using obj_delete_Forall|].
      split; [auto using obj_delete_Forall|]. split; [auto using obj_delete_NoDup|].
      intros k K1 K2. rewrite !obj_get_delete, !jsstring_eqb_neq by congruence. apply G2.
    + exists (splitClasses (obj_get (js "className") p2)), (obj_delete (js "className") p2).
      split; [cbn [app]; reflexivity|]. split; [apply T; auto|].
      split; [auto using obj_delete_Forall|]. split; [auto using obj_delete_NoDup|].
      intros k K1 K2. rewrite !obj_get_delete, !jsstring_eqb_neq by congruence. apply G2.
  - destruct (obj_truthy (js "class") p2) eqn:C2.
    + exists (splitClasses (obj_get (js "class") p2)), (obj_delete (js "class") p2).
      split; [cbn [app]; reflexivity|]. split; [apply T; auto|].
      split; [auto using obj_delete_Forall|]. split; [auto using obj_delete_NoDup|].
      intros k K1 K2. rewrite !obj_get_delete, !jsstring_eqb_neq by congruence. apply G2.
    + exists [], p2. split; [reflexivity|]. split; [constructor|]. auto.
Qed.

Lemma render_attribute_no_gt (Q := fun c => (c =? gt_sign)%N = false) (kv : jsstring * jsstring) :
  Forall Q (fst kv) -> Forall Q (render_attribute kv).
Proof.
  intros F. unfold render_attribute. rewrite !Forall_app. repeat split; auto.
  - repeat constructor.
  - repeat constructor.
  - eapply Forall_impl; [|apply escapeAttribute_chars]. cbv beta. tauto.
  - repeat constructor.
Qed.

Lemma buildTagAttributes_lacks_gt (attrs baseClass : jsstring) (stripAttrs : list jsstring)
    (keepOnly : option (list jsstring)) :
  lacks gt_sign attrs -> lacks gt_sign baseClass ->
  lacks gt_sign (buildTagAttributes attrs baseClass stripAttrs keepOnly).
Proof.
  intros Fa Fb.
  destruct (@buildTagAttributes_shape (fun c => (c =? gt_sign)%N = false)
              attrs baseClass stripAttrs keepOnly Fa)
    as (tokens & final & -> & Ft & Ff & _ & _).
  unfold lacks. rewrite !Forall_app. repeat split; try (repeat constructor; fail).
  - apply join_Forall; [repeat constructor|].
    apply Forall_forall. intros t Ht. apply filter_In in Ht. destruct Ht as [[<-|Ht] _];
      [exact Fb|]. rewrite Forall_forall in Ft. now destruct (Ft t Ht).
  - destruct (truthy _); [|constructor]. apply Forall_app. split; [repeat constructor|].
    apply join_Forall; [repeat constructor|]. apply Forall_map.
    eapply Forall_impl; [|exact Ff]. intros kv (_ & Hk & _). now apply render_attribute_no_gt.
Qed.

(** X23.  When the attribute text and the base class have no [>], what
    [buildTagAttributes] returns has none: the tag it is spliced into
    ends where it should. *)
Theorem buildTagAttributes_no_gt (attrs baseClass : jsstring) (stripAttrs : list jsstring)
    (keepOnly : option (list jsstring)) :
  lacks gt_sign attrs -> lacks gt_sign baseClass ->
  lacks gt_sign (buildTagAttributes attrs baseClass stripAttrs keepOnly).
Proof. apply buildTagAttributes_lacks_gt. Qed.

Lemma buildTagAttributes_no_gt_witness :
  (lacks gt_sign (js " class='a<b' title='x' open") /\ lacks gt_sign (js "arena-card")) /\
  lacks gt_sign (buildTagAttributes (js " class='a<b' title='x' open") (js "arena-card") [] None).
Proof.
  split; [split; repeat constructor|].
  apply buildTagAttributes_no_gt; repeat constructor.
Defined.

Lemma buildTagAttributes_last (attrs baseClass : jsstring) (stripAttrs : list jsstring)
    (keepOnly : option (list jsstring)) :
  exists body, buildTagAttributes attrs baseClass stripAttrs keepOnly = body ++ dq.
Proof.
  destruct (@buildTagAttributes_shape (fun _ => True) attrs baseClass stripAttrs keepOnly)
    as (tokens & final & -> & _); [apply Forall_forall; auto|].
  destruct (truthy _) eqn:T.
  - assert (J : forall l, l <> [] -> exists b, join (js " ") (map render_attribute l) = b ++ dq).
    { induction l as [|kv l IH]; intros Hl; [contradiction|].
      destruct l as [|kv' l].
      - cbn [map join]. unfold render_attribute. eexists. rewrite !app_assoc. reflexivity.
      - destruct IH as [b Hb]; [discriminate|].
        change (join (js " ") (map render_attribute (kv :: kv' :: l)))
          with (render_attribute kv ++ js " " ++ join (js " ") (map render_attribute (kv' :: l))).
        rewrite Hb. eexists. rewrite !app_assoc. reflexivity. }
    destruct (J final) as [b Hb]; [intros ->; discriminate|].
    rewrite Hb. eexists. rewrite !app_assoc. reflexivity.
  - eexists. rewrite app_nil_r, !app_assoc. reflexivity.
Qed.

(** ** Component tags *)

Lemma js_app (a b : string) : js (a ++ b) = js a ++ js b.
Proof.
  unfold js. induction a as [|x a IH]; [reflexivity|]. cbn [String.append list_ascii_of_string map app].
  now rewrite IH.
Qed.

Lemma starts_with_ci_self (ic : bool) (w rest : jsstring) :
  starts_with_ci ic w (w ++ rest) = Some rest.
Proof. now apply starts_with_ci_same. Qed.

Lemma hits_lit (ic : bool) (w : string) (s' : jsstring) (caps : captures) :
  hits ic (lit w) (js w) s' caps caps.
Proof. intros k res K. now rewrite run_lit, starts_with_ci_self. Qed.

Lemma star_greedy_backoff (ic : bool) (a : atom) (k : cont) (caps : captures)
    (u : jsstring) (c : code_unit) (rest : jsstring) res :
  Forall (fun x => atom_match ic a x = true) u ->
  atom_match ic a c = true -> stops ic a rest ->
  k rest caps = None -> k (c :: rest) caps = Some res ->
  star_greedy ic a (u ++ c :: rest) caps k = Some res.
Proof.
  intros F Hc S N K. induction F as [|x u Hx F IH]; cbn [app star_greedy].
  - rewrite Hc. replace (star_greedy ic a rest caps k) with (@None (jsstring * captures)); [exact K|].
    symmetry. destruct rest as [|d rest]; cbn [star_greedy stops] in *; [exact N|].
    now rewrite S.
  - now rewrite Hx, IH.
Qed.

Lemma gt_class (ic : bool) (c : code_unit) :
  (canon ic c =? canon ic gt_sign)%N = false -> atom_match ic (none_of [ch ">"]) c = true.
Proof. intros H. cbn [atom_match none_of existsb item_match ch]. change (cu ">") with gt_sign. now rewrite H. Qed.

Lemma lacks_gt_class (s : jsstring) :
  lacks gt_sign s -> Forall (fun c => atom_match false (none_of [ch ">"]) c = true) s.
Proof. apply Forall_impl. intros c H. now apply gt_class. Qed.

Lemma opening_tag_hit (name : string) (attrs rest : jsstring) :
  lacks gt_sign attrs ->
  match_here false (re_source (openingTagRegex name)) ((js ("<" ++ name) ++ attrs ++ js ">") ++ rest)
  = Some (rest, [(1, attrs)]).
Proof.
  intros F. apply hits_match_here. cbn [re_source openingTagRegex g].
  apply hits_seq with (caps1 := []); [apply hits_lit|].
  apply hits_seq with (caps1 := [(1, attrs)]); [|now apply hits_atom].
  apply hits_group. apply hits_star; [now apply lacks_gt_class|reflexivity].
Qed.

Lemma closing_tag_quiet (name : string) (body : jsstring) :
  Forall (fun c => is_letter c = true) (js name) ->
  lacks gt_sign body ->
  quiet false (re_source (closingTagRegex name)) ((body ++ dq) ++ js ">").
Proof.
  intros Fn Fb. cbn [re_source closingTagRegex g]. apply occurs_quiet.
  rewrite !js_app. rewrite app_assoc.
  apply occurs_false_app.
  - intros a1 c a2 E.
    change (starts_with_ci false ((js "</" ++ js name) ++ [gt_sign]) ((c :: a2) ++ js ">") = None).
    apply starts_with_ci_blocked.
    + discriminate.
    + assert (F : lacks gt_sign (body ++ dq)) by (apply Forall_app; split; [exact Fb|repeat constructor]).
      rewrite E in F. apply Forall_app in F. now destruct F.
    + assert (El : last (c :: a2) 0%N = dqc).
      { destruct (@exists_last _ (c :: a2)) as (l' & z & El); [discriminate|].
        rewrite El in E |- *. rewrite app_assoc in E. apply app_inj_tail in E.
        destruct E as [_ <-]. apply last_last. }
      rewrite El. intros x Hx. apply in_app_or in Hx. destruct Hx as [Hx|Hx].
      * repeat (destruct Hx as [<-|Hx]; [reflexivity|]). destruct Hx.
      * rewrite Forall_forall in Fn. specialize (Fn x Hx). cbn [canon].
        apply N.eqb_neq. intros <-. discriminate.
  - apply occurs_short. rewrite length_app. cbn. lia.
Qed.

(** X24.  [replaceComponent] rewrites an opening tag of its component,
    whatever the attribute text (without [>]) after the name: the tag
    becomes the target tag with the attributes [buildTagAttributes] makes
    of that text. *)
Theorem replaceComponent_opening_tag (componentName tagName baseClass : string)
    (stripAttrs : list string) (attrs : jsstring) :
  Forall (fun c => is_letter c = true) (js componentName) ->
  lacks gt_sign (js tagName) -> lacks gt_sign (js baseClass) -> lacks gt_sign attrs ->
  replaceComponent (js "<" ++ js componentName ++ attrs ++ js ">")
    componentName tagName baseClass stripAttrs =
  js "<" ++ js tagName ++ buildTagAttributes attrs (js baseClass) (map js stripAttrs) None
  ++ js ">".
Proof.
  intros Fn Ft Fb Fa. unfold replaceComponent, String_replace, replace_all.
  set (f := fun (_ : jsstring) caps => js "<" ++ js tagName ++
              buildTagAttributes (group 1 caps) (js baseClass) (map js stripAttrs) None ++ js ">").
  assert (E1 : replace_go false (re_source (openingTagRegex componentName)) f
                 (js "<" ++ js componentName ++ attrs ++ js ">") 0 =
               js "<" ++ js tagName ++
               buildTagAttributes attrs (js baseClass) (map js stripAttrs) None ++ js ">").
  { rewrite <- (app_nil_r (js "<" ++ js componentName ++ attrs ++ js ">")).
    rewrite (@replace_go_match false _ f _ [] [(1, attrs)]).
    - cbn [replace_go]. unfold match_here. cbn [re_source openingTagRegex g run].
      rewrite run_lit, js_app. cbn [app starts_with_ci]. now rewrite app_nil_r.
    - discriminate.
    - rewrite app_assoc, <- js_app. now apply opening_tag_hit. }
  change (re_ignoreCase (openingTagRegex componentName)) with false.
  change (re_ignoreCase (closingTagRegex componentName)) with false. rewrite E1.
  destruct (buildTagAttributes_last attrs (js baseClass) (map js stripAttrs) None) as [body Eb].
  apply replace_go_quiet.
  pose proof (@buildTagAttributes_lacks_gt attrs (js baseClass) (map js stripAttrs) None Fa Fb) as G.
  rewrite Eb in G |- *. apply Forall_app in G. destruct G as [G _].
  replace (js "<" ++ js tagName ++ (body ++ dq) ++ js ">")
    with (((js "<" ++ js tagName ++ body) ++ dq) ++ js ">") by (now rewrite <- !app_assoc).
  apply closing_tag_quiet; [exact Fn|].
  apply Forall_app. split; [repeat constructor|]. apply Forall_app. split; assumption.
Qed.

Lemma replaceComponent_opening_tag_witness :
  (Forall (fun c => is_letter c = true) (js "Link") /\ lacks gt_sign (js "a") /\
   lacks gt_sign (js "arena-link") /\ lacks gt_sign (js " href='/x' prefetch={false}")) /\
  replaceComponent (js "<" ++ js "Link" ++ js " href='/x' prefetch={false}" ++ js ">")
    "Link" "a" "arena-link" ["prefetch"%string; "legacyBehavior"%string] =
  js "<" ++ js "a" ++
  buildTagAttributes (js " href='/x' prefetch={false}") (js "arena-link")
    (map js ["prefetch"%string; "legacyBehavior"%string]) None ++ js ">".
Proof.
  split; [repeat split; repeat constructor|].
  apply replaceComponent_opening_tag; repeat constructor.
Defined.










Lemma self_closing_hit (name : string) (attrs : jsstring) :
  lacks gt_sign attrs ->
  match_here false (re_source (selfClosingRegex name)) ((js ("<" ++ name) ++ attrs ++ js "/>") ++ [])
  = Some ([], [(1, attrs)]).
Proof.
  intros F. unfold match_here. cbn [re_source selfClosingRegex g run].
  rewrite run_lit, app_nil_r, starts_with_ci_self.
  change (js "/>") with (cu "/" :: js ">").
  apply star_greedy_backoff.
  - now apply lacks_gt_class.
  - reflexivity.
  - reflexivity.
  - reflexivity.
  - rewrite run_lit. change (cu "/" :: js ">") with (js "/>" ++ []).
    rewrite starts_with_ci_self. now rewrite firstn_matched.
Qed.

(** X26.  [replaceSelfClosing] rewrites a self-closing tag of its
    component, whatever the attribute text (without [>]) between the name
    and [/>]: the tag becomes an empty element of the target tag, with the
    attributes [buildTagAttributes] makes of that text and keeps. *)
Theorem replaceSelfClosing_tag (componentName tagName baseClass : string)
    (keepAttrs : list string) (attrs : jsstring) :
  Forall (fun c => is_letter c = true) (js componentName) ->
  lacks gt_sign attrs ->
  replaceSelfClosing (js "<" ++ js componentName ++ attrs ++ js "/>")
    componentName tagName baseClass keepAttrs =
  js "<" ++ js tagName ++
  buildTagAttributes attrs (js baseClass) [] (Some (map js keepAttrs)) ++
  js "></" ++ js tagName ++ js ">".
Proof.
  intros _ Fa. unfold replaceSelfClosing, String_replace, replace_all.
  change (re_ignoreCase (selfClosingRegex componentName)) with false.
  rewrite <- (app_nil_r (js "<" ++ js componentName ++ attrs ++ js "/>")).
  match goal with
  | |- replace_go _ _ ?f _ _ = _ => rewrite (@replace_go_match false _ f _ [] [(1, attrs)])
  end.
  - cbn [replace_go]. unfold match_here. cbn [re_source selfClosingRegex g run].
    rewrite run_lit, js_app. cbn [app starts_with_ci group cap_get Nat.eqb].
    now rewrite app_nil_r.
  - discriminate.
  - rewrite app_assoc, <- js_app. now apply self_closing_hit.
Qed.

Lemma replaceSelfClosing_tag_witness :
  (Forall (fun c => is_letter c = true) (js "Image") /\
   lacks gt_sign (js " src='a/b.png' fill ")) /\
  replaceSelfClosing (js "<" ++ js "Image" ++ js " src='a/b.png' fill " ++ js "/>")
    "Image" "div" "arena-image" ["src"%string; "alt"%string] =
  js "<" ++ js "div" ++
  buildTagAttributes (js " src='a/b.png' fill ") (js "arena-image") []
    (Some (map js ["src"%string; "alt"%string])) ++
  js "></" ++ js "div" ++ js ">".
Proof.
  split; [split; repeat constructor|].
  apply replaceSelfClosing_tag; repeat constructor.
Defined.

(** ** Reading the attributes back *)

Lemma attribute_matches_written (l : list (jsstring * jsstring)) :
  Forall (fun kv => attribute_name (fst kv) = true /\ lacks dqc (snd kv)) l ->
  attribute_matches (join (js " ") (map written l)) =
  map (fun kv => (fst kv, raw_value DoubleQuoted (snd kv))) l.
Proof.
  unfold attribute_matches.
  induction 1 as [|[k v] l [Hk Hv] F IH]; [reflexivity|]. cbn [fst snd] in *.
  assert (M : forall rest,
    match_here false (re_source attribute_regex) (written (k, v) ++ rest) =
    Some (rest, [(2, raw_value DoubleQuoted v); (1, k)])).
  { intros rest.
    pose proof (@attribute_hit k [] [] DoubleQuoted v rest Hk (Forall_nil _) (Forall_nil _) Hv) as H.
    etransitivity; [|exact H]. f_equal. unfold written, raw_value, dq.
    cbn [fst snd form_open form_close js list_ascii_of_string map app].
    list_norm. reflexivity. }
  assert (W : written (k, v) <> []) by (destruct k; discriminate).
  destruct l as [|kv' l].
  - cbn [map join]. rewrite <- (app_nil_r (written (k, v))).
    rewrite (@exec_loop_match _ _ _ _ W (M [])). reflexivity.
  - change (join (js " ") (map written ((k, v) :: kv' :: l)))
      with (written (k, v) ++ js " " ++ join (js " ") (map written (kv' :: l))).
    rewrite (@exec_loop_match _ _ _ _ W (M _)).
    rewrite exec_loop_spaces by (repeat constructor).
    cbn [map] in IH |- *. rewrite IH. reflexivity.
Qed.

Lemma parse_fold_get (key : jsstring) (l : list (jsstring * jsstring)) :
  key <> js "__proto__" ->
  obj_get key
    (fold_left (fun attrs kv => obj_set (fst kv) (unwrapAttributeValue (snd kv)) attrs) l []) =
  option_map unwrapAttributeValue (last_raw key l).
Proof.
  intros P. induction l as [|kv l IH] using rev_ind; [reflexivity|].
  rewrite fold_left_app, last_raw_snoc. cbn [fold_left].
  rewrite obj_get_set by exact P.
  destruct (jsstring_eqb (fst kv) key); [reflexivity|exact IH].
Qed.

Lemma parseAttributes_no_proto (s : jsstring) :
  obj_get (js "__proto__") (parseAttributes s) = None.
Proof.
  unfold parseAttributes.
  apply (@fold_invariant _ (fun o => obj_get (js "__proto__") o = None)); [|reflexivity].
  intros o kv H. unfold obj_set. destruct (jsstring_eqb (fst kv) (js "__proto__")) eqn:E; [exact H|].
  now rewrite obj_get_put, E.
Qed.

Lemma last_raw_cons (key : jsstring) (x : jsstring * jsstring) (l : list (jsstring * jsstring)) :
  last_raw key (x :: l) =
  match last_raw key l with
  | Some v => Some v
  | None => if jsstring_eqb (fst x) key then Some (snd x) else None
  end.
Proof.
  revert x. induction l as [|y l IH] using rev_ind; intros x.
  - cbn. now destruct (jsstring_eqb (fst x) key).
  - change (x :: l ++ [y]) with ((x :: l) ++ [y]). rewrite !last_raw_snoc.
    destruct (jsstring_eqb (fst y) key); [reflexivity|]. apply IH.
Qed.

Lemma last_raw_absent (key : jsstring) (l : list (jsstring * jsstring)) :
  ~ In key (map fst l) -> last_raw key l = None.
Proof.
  induction l as [|x l IH]; [reflexivity|]. cbn [map In]. intros H.
  rewrite last_raw_cons, IH by tauto.
  rewrite jsstring_eqb_neq; [reflexivity|tauto].
Qed.

Lemma last_raw_unique (key : jsstring) (h : jsstring -> jsstring) (o : jsobject) :
  NoDup (map fst o) ->
  last_raw key (map (fun kv => (fst kv, h (snd kv))) o) = option_map h (obj_get key o).
Proof.
  induction o as [|[k v] o IH]; [reflexivity|]. cbn [map fst snd]. intros H.
  inversion H; subst. rewrite last_raw_cons. cbn [obj_get fst snd].
  destruct (jsstring_eqb k key) eqn:E.
  - apply jsstring_eqb_eq in E. subst k. rewrite last_raw_absent; [reflexivity|].
    now rewrite map_map.
  - rewrite IH by assumption. now destruct (obj_get key o).
Qed.

(** X27.  What [buildTagAttributes] writes, [parseAttributes] reads back:
    for a base class without double quote and a key other than [class]
    and [className], the text returned holds the key exactly when the
    attribute text did and the key is neither stripped nor outside a
    non-empty keep list, and its value is the escaped value. *)
Theorem buildTagAttributes_reparse (attrs baseClass : jsstring) (stripAttrs : list jsstring)
    (keepOnly : option (list jsstring)) (k : jsstring) :
  lacks dqc baseClass -> k <> js "class" -> k <> js "className" ->
  obj_get k (parseAttributes (buildTagAttributes attrs baseClass stripAttrs keepOnly)) =
  if includes stripAttrs k || keep_drops keepOnly k then None
  else option_map escapeAttribute (obj_get k (parseAttributes attrs)).
Proof.
  intros Fb K1 K2.
  destruct (jsstring_eqb k (js "__proto__")) eqn:Ep.
  { apply jsstring_eqb_eq in Ep. subst k. rewrite !parseAttributes_no_proto.
    now destruct (_ || _). }
  assert (Kp : k <> js "__proto__") by (intros ->; rewrite jsstring_eqb_refl in Ep; discriminate).
  destruct (@buildTagAttributes_shape (fun _ => True) attrs baseClass stripAttrs keepOnly)
    as (tokens & final & -> & Ft & Ff & Nf & G); [apply Forall_forall; auto|].
  replace (if includes stripAttrs k || keep_drops keepOnly k then None
           else option_map escapeAttribute (obj_get k (parseAttributes attrs)))
    with (option_map escapeAttribute (obj_get k final))
    by (rewrite (G k K1 K2); now destruct (_ || _)).
  clear G.
  set (C := join (js " ") (filter truthy (baseClass :: tokens))).
  set (L := (js "class", C) :: map (fun kv => (fst kv, escapeAttribute (snd kv))) final).
  assert (E : js " class=" ++ dq ++ C ++ dq ++
              (if truthy (join (js " ") (map render_attribute final))
               then js " " ++ join (js " ") (map render_attribute final) else []) =
              js " " ++ join (js " ") (map written L)).
  { assert (R : map written (map (fun kv => (fst kv, escapeAttribute (snd kv))) final) =
                map render_attribute final) by (rewrite map_map; reflexivity).
    subst L. cbn [map]. rewrite R. destruct final as [|kv final].
    - cbn [map join truthy]. unfold written. cbn [fst snd]. now rewrite app_nil_r.
    - replace (truthy (join (js " ") (map render_attribute (kv :: final)))) with true.
      + cbn [map]. change (join (js " ") (written (js "class", C) :: ?x :: ?l))
          with (written (js "class", C) ++ js " " ++ join (js " ") (x :: l)).
        unfold written at 1. cbn [fst snd]. now rewrite <- !app_assoc.
      + cbn [map]. destruct (fst kv) eqn:Ek.
        * rewrite Forall_forall in Ff. destruct (Ff kv (or_introl eq_refl)) as [Hn _].
          rewrite Ek in Hn. discriminate.
        * unfold render_attribute at 1. rewrite Ek. destruct final; reflexivity. }
  rewrite E. unfold parseAttributes at 1. unfold attribute_matches.
  rewrite exec_loop_spaces by (repeat constructor).
  fold (attribute_matches (join (js " ") (map written L))).
  rewrite attribute_matches_written.
  - rewrite parse_fold_get by exact Kp. subst L. cbn [map]. rewrite last_raw_cons.
    cbn [fst snd]. rewrite (jsstring_eqb_neq (a := js "class") (b := k)) by congruence.
    rewrite map_map. cbn [fst snd].
    rewrite (@last_raw_unique k (fun v => raw_value DoubleQuoted (escapeAttribute v)) final Nf).
    destruct (obj_get k final) as [v|]; cbn [option_map]; [|reflexivity].
    now rewrite unwrap_raw_value.
  - subst L. constructor.
    + cbn [fst snd]. split; [reflexivity|]. subst C. apply join_Forall; [repeat constructor|].
      apply Forall_forall. intros t Ht. apply filter_In in Ht. destruct Ht as [[<-|Ht] _];
        [exact Fb|]. rewrite Forall_forall in Ft. destruct (Ft t Ht) as [_ Hc].
      eapply Forall_impl; [|exact Hc]. intros c Hcc. apply class_char_cases in Hcc.
      destruct Hcc as [_ Hn]. unfold is_class_noise in Hn. rewrite !orb_false_iff in Hn. tauto.
    + apply Forall_map. eapply Forall_impl; [|exact Ff]. intros kv (Hn & _ & _).
      cbn [fst snd]. split; [exact Hn|].
      eapply Forall_impl; [|apply escapeAttribute_chars]. cbv beta. tauto.
Qed.

Lemma buildTagAttributes_reparse_witness :
  let attrs := js " variant='ghost' title={ a<b } class='x'" in
  (lacks dqc (js "arena-btn") /\ js "title" <> js "class" /\ js "title" <> js "className") /\
  obj_get (js "title")
    (parseAttributes (buildTagAttributes attrs (js "arena-btn") [js "variant"] None)) =
  (if includes [js "variant"] (js "title") || keep_drops None (js "title") then None
   else option_map escapeAttribute (obj_get (js "title") (parseAttributes attrs))).
Proof.
  cbv zeta. split; [repeat split; try discriminate; repeat constructor|].
  apply buildTagAttributes_reparse; try discriminate; repeat constructor.
Defined.
